(** * make_Makemodule.py: a shallow embedding and its checked properties

    The script scans a source tree, writes [Makemodule.am] fragments and
    run-wrapper scripts, and splices references to them between two marker
    lines of [Makefile.am] and [configure.ac].

    Conventions of the model.
    - A Python (unicode) string is a list of code points, [str := list N].
    - A file stores characters.  A handle opened for reading in text mode
      yields them with universal newlines: a carriage return, alone or
      followed by a line feed, is read as one line feed, so that every line
      read ends in the line feed U+000A.  A handle opened for writing stores
      the text as it is ([os.linesep] is the line feed, as on POSIX).
    - A file object opened for writing is the text written so far;
      [f.write(s)] appends [s].
    - The filesystem is a tree of named entries, the working directory
      being its root. *)

From Stdlib Require Import List NArith Bool Arith Lia.
From Stdlib Require Ascii String.
Import String.StringSyntax.
Delimit Scope string_scope with string.
Import ListNotations.

Set Implicit Arguments.

(** ** Python strings *)

Definition char := N.
Definition str := list char.

(** [lit "abc"] is the Python literal ['abc']. *)
Definition lit (s : String.string) : str :=
  List.map Ascii.N_of_ascii (String.list_ascii_of_string s).
Arguments lit s%_string.

Definition nl : char := 10%N.        (* line feed *)
Definition cr : char := 13%N.        (* carriage return *)
Definition bslash : char := 92%N.    (* backslash *)
Definition dquote : char := 34%N.    (* double quote *)
Definition sep : char := 47%N.       (* os.sep on POSIX *)
Definition period : char := 46%N.
Definition underscore : char := 95%N.

Fixpoint str_eqb (a b : str) : bool :=
  match a, b with
  | [], [] => true
  | x :: a', y :: b' => N.eqb x y && str_eqb a' b'
  | _, _ => false
  end.

(** [str.isspace] for one code point, CPython's whitespace table. *)
Definition py_isspace (c : char) : bool :=
  ((9 <=? c) && (c <=? 13) || (28 <=? c) && (c <=? 32)
   || (c =? 133) || (c =? 160) || (c =? 5760)
   || (8192 <=? c) && (c <=? 8202)
   || (c =? 8232) || (c =? 8233) || (c =? 8239) || (c =? 8287)
   || (c =? 12288))%N.

Fixpoint drop_while (p : char -> bool) (s : str) : str :=
  match s with
  | [] => []
  | c :: s' => if p c then drop_while p s' else s
  end.

(** [s.rstrip()] *)
Definition rstrip (s : str) : str := rev (drop_while py_isspace (rev s)).

(** [s.startswith(p)] *)
Fixpoint startswith (p s : str) : bool :=
  match p, s with
  | [], _ => true
  | x :: p', y :: s' => N.eqb x y && startswith p' s'
  | _ :: _, [] => false
  end.

(** [s.endswith(p)] *)
Definition endswith (p s : str) : bool := startswith (rev p) (rev s).

(** [p in s] for strings *)
Fixpoint contains (p s : str) : bool :=
  startswith p s || match s with [] => false | _ :: s' => contains p s' end.

(** [s.split(c)] for a one-character separator *)
Fixpoint split (c : char) (s : str) : list str :=
  match s with
  | [] => [[]]
  | x :: s' =>
      if N.eqb x c then [] :: split c s'
      else match split c s' with
           | [] => [[x]]
           | w :: ws => (x :: w) :: ws
           end
  end.

(** [c.join(parts)] *)
Fixpoint join_with (c : str) (parts : list str) : str :=
  match parts with
  | [] => []
  | [p] => p
  | p :: ps => p ++ c ++ join_with c ps
  end.

(** ** Text files read line by line *)

(** The text that a handle opened with [open(filename, 'r')] yields for the
    characters the file stores: a carriage return is read as a line feed, and
    a line feed that follows a carriage return is left out.  [pendingcr]
    tells that the character before was a carriage return. *)
Fixpoint newline_decode (pendingcr : bool) (s : str) : str :=
  match s with
  | [] => []
  | c :: s' =>
      if N.eqb c cr then nl :: newline_decode true s'
      else if N.eqb c nl && pendingcr then newline_decode false s'
      else c :: newline_decode false s'
  end.

Definition read_text (stored : str) : str := newline_decode false stored.

(** [f.readline()] on the unread text: the line with its line feed, and
    what is left; the empty string at end of file. *)
Fixpoint readline (s : str) : str * str :=
  match s with
  | [] => ([], [])
  | c :: s' =>
      if N.eqb c nl then ([c], s')
      else let (l, r) := readline s' in (c :: l, r)
  end.

(** All the lines of a text, each as [readline] returns it. *)
Fixpoint readlines (s : str) : list str :=
  match s with
  | [] => []
  | c :: s' =>
      if N.eqb c nl then [c] :: readlines s'
      else match readlines s' with
           | [] => [[c]]
           | l :: ls => (c :: l) :: ls
           end
  end.

(** ** replace_lines *)

Definition BEGIN_MAKEMODULE : str := lit "# BEGIN MAKEMODULE".
Definition END_MAKEMODULE : str := lit "# END MAKEMODULE".

Definition is_begin (line : str) : bool := str_eqb (rstrip line) BEGIN_MAKEMODULE.
Definition is_end (line : str) : bool := str_eqb (rstrip line) END_MAKEMODULE.

Module Splice.

(** The two loops of [replace_lines]. *)
Inductive loop := Outer | Inner.

(** The local state: which loop is running, the current [line], the unread
    text of [f], and [lines_to_write]. *)
Record state := State {
  at_loop : loop;
  line : str;
  f : str;
  lines_to_write : list str
}.

(** One iteration of the loop that is running.  [inr] is the exit of the
    outer loop, with the lines to write. *)
Definition step (lines_to_insert : list str) (s : state) : state + list str :=
  match at_loop s with
  | Outer =>
      match line s with
      | [] => inr (lines_to_write s)
      | _ :: _ =>
          if is_begin (line s) then
            inl (State Inner (line s) (f s)
                       ((lines_to_write s ++ [line s]) ++ lines_to_insert))
          else
            let (l, r) := readline (f s) in
            inl (State Outer l r (lines_to_write s ++ [line s]))
      end
  | Inner =>
      if negb (is_end (line s)) then
        let (l, r) := readline (f s) in
        inl (State Inner l r (lines_to_write s))
      else
        let (l, r) := readline (f s) in
        inl (State Outer l r (lines_to_write s ++ [line s]))
  end.

Fixpoint run (lines_to_insert : list str) (fuel : nat) (s : state)
  : option (list str) :=
  match fuel with
  | O => None
  | S n =>
      match step lines_to_insert s with
      | inr out => Some out
      | inl s' => run lines_to_insert n s'
      end
  end.

(** The state [n] iterations later, or the exit of the outer loop when it
    comes earlier. *)
Fixpoint after (lines_to_insert : list str) (n : nat) (s : state)
  : state + list str :=
  match n with
  | O => inl s
  | S n' =>
      match step lines_to_insert s with
      | inr out => inr out
      | inl s' => after lines_to_insert n' s'
      end
  end.

(** The state after [line = f.readline()] on the freshly opened file. *)
Definition start (content : str) : state :=
  let (l, r) := readline content in State Outer l r [].

End Splice.

(** The loops of [replace_lines(filename, lines_to_insert)] and its
    rewrite, on the text [content] that the handle [f] yields: the text
    written to the file afterwards, or [None] when [fuel] loop iterations do
    not reach the second [open]. *)
Definition replace_lines (fuel : nat) (lines_to_insert : list str)
    (content : str) : option str :=
  match Splice.run lines_to_insert fuel (Splice.start content) with
  | Some lines_to_write => Some (concat lines_to_write)
  | None => None
  end.

(** [replace_lines] returns, leaving [out] in the file. *)
Definition replace_lines_returns (lines_to_insert : list str)
    (content out : str) : Prop :=
  exists fuel, replace_lines fuel lines_to_insert content = Some out.

(** [replace_lines] never reaches the rewrite of the file. *)
Definition replace_lines_diverges (lines_to_insert : list str)
    (content : str) : Prop :=
  forall fuel, replace_lines fuel lines_to_insert content = None.

(** [replace_lines(filename, lines_to_insert)] on the characters the file
    stores: [open(filename, 'r')] yields them decoded, and what is written
    through [open(filename, 'w')] is stored as it is. *)
Definition replace_lines_file (fuel : nat) (lines_to_insert : list str)
    (stored : str) : option str :=
  replace_lines fuel lines_to_insert (read_text stored).

(** [replace_lines] returns, the file storing [out] afterwards. *)
Definition replace_lines_file_returns (lines_to_insert : list str)
    (stored out : str) : Prop :=
  exists fuel, replace_lines_file fuel lines_to_insert stored = Some out.

(** ** Exceptions *)

Inductive exn :=
| FileNotFoundError     (* ENOENT *)
| NotADirectoryError    (* ENOTDIR *)
| IsADirectoryError     (* EISDIR *)
| TypeError.

Inductive result (A : Type) :=
| Ok (a : A)
| Raise (e : exn).
Arguments Ok {A} a.
Arguments Raise {A} e.

Definition bind {A B} (r : result A) (k : A -> result B) : result B :=
  match r with
  | Ok a => k a
  | Raise e => Raise e
  end.

Notation "x <- r ;; k" := (bind r (fun x => k))
  (at level 61, r at next level, right associativity).

(** ** os.path *)

(** [os.path.join(a, b)] on POSIX *)
Definition join (a b : str) : str :=
  if startswith [sep] b then b
  else match a with
       | [] => b
       | _ :: _ => if endswith [sep] a then a ++ b else a ++ [sep] ++ b
       end.

(** [os.path.join(a, *p)] *)
Definition join_all (a : str) (p : list str) : str := fold_left join p a.

(** [s.rfind(os.sep) + 1] taken on the reversed string: the reversed tail
    and the reversed head of [os.path.split]. *)
Fixpoint rsplit_sep (r : str) : str * str :=
  match r with
  | [] => ([], [])
  | c :: r' =>
      if N.eqb c sep then ([], r)
      else let (t, h) := rsplit_sep r' in (c :: t, h)
  end.

(** [os.path.split(p)] on POSIX: the head loses its trailing slashes unless
    it consists of slashes only. *)
Definition os_path_split (p : str) : str * str :=
  let (t, h) := rsplit_sep (rev p) in
  let h' := drop_while (N.eqb sep) h in
  (match h' with [] => rev h | _ :: _ => rev h' end, rev t).

(** ** The fragment writers *)

(** [f.write(s)] *)
Definition write (f s : str) : str := f ++ s.

(** The [for] loop of [write_files], [index] counting the values written and
    [len] being [len(files)] of the whole list. *)
Fixpoint write_files_loop (f : str) (files : list str) (index len : nat) : str :=
  match files with
  | [] => f
  | file :: rest =>
      let f := write f (lit "  " ++ file) in
      let f := if Nat.eqb (index + 1) len
               then write f [nl; nl]
               else write f [bslash; nl] in
      write_files_loop f rest (index + 1) len
  end.

Definition write_files (f : str) (files : list str) : str :=
  write_files_loop f files 0 (length files).

Definition append_option (f name option : str) (objlist : list str) : str :=
  match length objlist with
  | O => f
  | S _ =>
      write_files
        (write f (name ++ lit "_" ++ option ++ lit " += " ++ [bslash; nl]))
        objlist
  end.

Definition append (f var : str) (objlist : list str) : str :=
  match length objlist with
  | O => f
  | S _ => write_files (write f (var ++ lit " += " ++ [bslash; nl])) objlist
  end.

Definition write_option (f name option : str) (objlist : list str) : str :=
  match length objlist with
  | O => f
  | S _ =>
      write_files
        (write f (name ++ lit "_" ++ option ++ lit " = " ++ [bslash; nl]))
        objlist
  end.

(** ** Regular expressions, as [re.match] uses them *)

Module Re.

(** The patterns of the script: literals, [.], sequence, [|], [*], [?] and
    groups.  [Sym p] is one character satisfying [p]. *)
Inductive regex :=
| Void
| Eps
| Sym (p : char -> bool)
| Cat (r1 r2 : regex)
| Alt (r1 r2 : regex)
| Star (r : regex).

Definition Chr (c : char) : regex := Sym (N.eqb c).
(** [.] without DOTALL: any character but the line feed *)
Definition Dot : regex := Sym (fun c => negb (N.eqb c nl)).
(** [.] under DOTALL *)
Definition Any : regex := Sym (fun _ => true).
Definition Opt (r : regex) : regex := Alt r Eps.

Fixpoint Lit (s : str) : regex :=
  match s with
  | [] => Eps
  | [c] => Chr c
  | c :: s' => Cat (Chr c) (Lit s')
  end.

Fixpoint Alts (rs : list regex) : regex :=
  match rs with
  | [] => Void
  | [r] => r
  | r :: rs' => Alt r (Alts rs')
  end.

Fixpoint nullable (r : regex) : bool :=
  match r with
  | Void => false
  | Eps => true
  | Sym _ => false
  | Cat r1 r2 => nullable r1 && nullable r2
  | Alt r1 r2 => nullable r1 || nullable r2
  | Star _ => true
  end.

(** Brzozowski derivative *)
Fixpoint deriv (c : char) (r : regex) : regex :=
  match r with
  | Void => Void
  | Eps => Void
  | Sym p => if p c then Eps else Void
  | Cat r1 r2 =>
      if nullable r1
      then Alt (Cat (deriv c r1) r2) (deriv c r2)
      else Cat (deriv c r1) r2
  | Alt r1 r2 => Alt (deriv c r1) (deriv c r2)
  | Star r1 => Cat (deriv c r1) (Star r1)
  end.

(** [bool(re.match(pattern, s))]: some prefix of [s], starting at position
    0, is matched. *)
Fixpoint re_match (r : regex) (s : str) : bool :=
  nullable r ||
  match s with
  | [] => false
  | c :: s' => re_match (deriv c r) s'
  end.

(** [bool(re.match(pattern + '\Z', s))]: the whole of [s] is matched. *)
Fixpoint re_fullmatch (r : regex) (s : str) : bool :=
  match s with
  | [] => nullable r
  | c :: s' => re_fullmatch (deriv c r) s'
  end.

(** The strings a pattern denotes. *)
Inductive matches : regex -> str -> Prop :=
| MEps : matches Eps []
| MSym p c : p c = true -> matches (Sym p) [c]
| MCat r1 r2 s1 s2 : matches r1 s1 -> matches r2 s2 -> matches (Cat r1 r2) (s1 ++ s2)
| MAltL r1 r2 s : matches r1 s -> matches (Alt r1 r2) s
| MAltR r1 r2 s : matches r2 s -> matches (Alt r1 r2) s
| MStar0 r : matches (Star r) []
| MStarApp r s1 s2 : matches r s1 -> matches (Star r) s2 -> matches (Star r) (s1 ++ s2).

(** The pattern matches at position 0: it denotes a prefix of [s]. *)
Definition matches_at_0 (r : regex) (s : str) : Prop :=
  exists p t, s = p ++ t /\ matches r p.

End Re.

(** default_include = '.*' *)
Definition default_include : Re.regex := Re.Star Re.Dot.

(** default_exclude = '.*\.(dirstamp|gitignore|am|hide|old|orig|lo|Plo|o)' *)
Definition default_exclude : Re.regex :=
  Re.Cat (Re.Star Re.Dot)
    (Re.Cat (Re.Chr period)
       (Re.Alts (List.map Re.Lit
          [lit "dirstamp"; lit "gitignore"; lit "am"; lit "hide"; lit "old";
           lit "orig"; lit "lo"; lit "Plo"; lit "o"]))).

(** The test of [find_files] on one file name [f] of a directory listing. *)
Definition accepts (include exclude : Re.regex) (f : str) : bool :=
  Re.re_match include f && negb (Re.re_match exclude f).

(** ** The file tree *)

Set Warnings "-register-all".

(** A directory lists its entries in the order [os.listdir] reports them. *)
Inductive node :=
| File
| Dir (entries : list (str * node)).

Fixpoint assoc (name : str) (entries : list (str * node)) : option node :=
  match entries with
  | [] => None
  | (n, x) :: rest => if str_eqb n name then Some x else assoc name rest
  end.

(** Path resolution, one component at a time; [above] holds the directories
    from the parent of [cur] up to the root. *)
Fixpoint resolve (above : list node) (cur : node) (segs : list str) : result node :=
  match segs with
  | [] => Ok cur
  | s :: rest =>
      match cur with
      | File => Raise NotADirectoryError
      | Dir entries =>
          if str_eqb s [] || str_eqb s (lit ".") then resolve above cur rest
          else if str_eqb s (lit "..") then
            match above with
            | [] => resolve [] cur rest
            | p :: above' => resolve above' p rest
            end
          else
            match assoc s entries with
            | Some child => resolve (cur :: above) child rest
            | None => Raise FileNotFoundError
            end
      end
  end.

(** The node a path names, from the working directory [fs]. *)
Definition lookup (fs : node) (path : str) : result node :=
  match path with
  | [] => Raise FileNotFoundError
  | _ :: _ => resolve [] fs (split sep path)
  end.

(** [os.path.isdir(path)] *)
Definition isdir (fs : node) (path : str) : bool :=
  match lookup fs path with
  | Ok (Dir _) => true
  | _ => false
  end.

(** [os.path.lexists(path)] *)
Definition lexists (fs : node) (path : str) : bool :=
  match lookup fs path with
  | Ok _ => true
  | Raise _ => false
  end.

(** [os.listdir(path)], with the nodes of the entries as [os.scandir]
    gives access to them. *)
Definition scandir (fs : node) (path : str) : result (list (str * node)) :=
  n <- lookup fs path ;;
  match n with
  | Dir entries => Ok entries
  | File => Raise NotADirectoryError
  end.

Definition listdir (fs : node) (path : str) : result (list str) :=
  entries <- scandir fs path ;; Ok (List.map fst entries).

Definition is_dir_entry (e : str * node) : bool :=
  match snd e with Dir _ => true | File => false end.

Definition dirs_of (entries : list (str * node)) : list str :=
  List.map fst (filter is_dir_entry entries).

Definition files_of (entries : list (str * node)) : list str :=
  List.map fst (filter (fun e => negb (is_dir_entry e)) entries).

(** The triples [os.walk] yields below a directory node, top down; the
    recursive call on [join(top, name)] scans the child of that name. *)
Fixpoint walk (top : str) (n : node) : list (str * list str * list str) :=
  match n with
  | File => []
  | Dir entries =>
      (top, dirs_of entries, files_of entries) ::
      (fix below (l : list (str * node)) :=
         match l with
         | [] => []
         | (name, child) :: l' => walk (join top name) child ++ below l'
         end) entries
  end.

(** [os.walk(top)]: with the default [onerror=None] a directory that cannot
    be listed yields nothing. *)
Definition os_walk (fs : node) (top : str) : list (str * list str * list str) :=
  match scandir fs top with
  | Ok entries => walk top (Dir entries)
  | Raise _ => []
  end.

(** [open(path, 'w')]: the directory part of the path has to resolve to a
    directory and the path itself must not name one. *)
Definition open_w (fs : node) (path : str) : result unit :=
  match path with
  | [] => Raise FileNotFoundError
  | _ :: _ =>
      parent <- resolve [] fs (removelast (split sep path)) ;;
      match parent with
      | File => Raise NotADirectoryError
      | Dir _ =>
          match lookup fs path with
          | Ok (Dir _) => Raise IsADirectoryError
          | _ => Ok tt
          end
      end
  end.

(** ** find_files *)

Definition find_files (fs : node) (loc : str) (include exclude : Re.regex)
  : result (list str) :=
  Ok (flat_map
        (fun '(root, dirs, files) =>
           List.map (join root) (filter (accepts include exclude) files))
        (os_walk fs loc)).

(** ** rm_existing *)

(** [os.getcwd()]: the working directory is the root of the tree. *)
Definition getcwd : str := [sep].

(** The pattern 'Makemodule.am(\.test)*' of [rm_existing]; its first
    period is not escaped. *)
Definition rm_pattern : Re.regex :=
  Re.Cat (Re.Lit (lit "Makemodule"))
    (Re.Cat Re.Dot
       (Re.Cat (Re.Lit (lit "am"))
          (Re.Star (Re.Cat (Re.Chr period) (Re.Lit (lit "test")))))).

(** [rm_existing()]: the paths it passes to [os.remove], in order.  Only
    regular files are removed, so the removals leave the walk as it is. *)
Definition rm_existing (fs : node) : list str :=
  flat_map
    (fun '(root, dirs, files) =>
       List.map (join root) (filter (Re.re_match rm_pattern) files))
    (os_walk fs getcwd).

(** ** fnmatch and glob *)

Module Glob.

Definition star : char := 42%N.
Definition qmark : char := 63%N.
Definition lbracket : char := 91%N.
Definition rbracket : char := 93%N.
Definition bang : char := 33%N.
Definition dash : char := 45%N.

(** The text up to the first closing bracket, and what follows it. *)
Fixpoint find_close (s : str) : option (str * str) :=
  match s with
  | [] => None
  | c :: s' =>
      if N.eqb c rbracket then Some ([], s')
      else match find_close s' with
           | Some (body, rest) => Some (c :: body, rest)
           | None => None
           end
  end.

(** The scan of [fnmatch.translate] after an opening bracket: a leading [!]
    and a closing bracket right after it belong to the class. *)
Definition bracket (s : str) : option (str * str) :=
  let '(b, s1) := match s with
                  | c :: s' => if N.eqb c bang then ([c], s') else ([], s)
                  | [] => ([], [])
                  end in
  let '(r, s2) := match s1 with
                  | c :: s' => if N.eqb c rbracket then ([c], s') else ([], s1)
                  | [] => ([], [])
                  end in
  match find_close s2 with
  | Some (body, rest) => Some (b ++ r ++ body, rest)
  | None => None
  end.

(** The ranges of a class body; a single character is a range of one. *)
Fixpoint class_items (stuff : str) : list (char * char) :=
  match stuff with
  | [] => []
  | lo :: rest =>
      match rest with
      | d :: hi :: rest' =>
          if N.eqb d dash then (lo, hi) :: class_items rest'
          else (lo, lo) :: class_items rest
      | _ => (lo, lo) :: class_items rest
      end
  end.

Definition in_class (stuff : str) (c : char) : bool :=
  let member body :=
    existsb (fun '(lo, hi) => N.leb lo c && N.leb c hi) (class_items body) in
  match stuff with
  | b :: body => if N.eqb b bang then negb (member body) else member stuff
  | [] => false
  end.

(** [fnmatch.translate(pat)], without the final anchor; [skip] characters
    of [pat] were consumed by the class before them. *)
Fixpoint translate_from (skip : nat) (pat : str) : Re.regex :=
  match pat with
  | [] => Re.Eps
  | c :: rest =>
      match skip with
      | S k => translate_from k rest
      | O =>
          if N.eqb c star then Re.Cat (Re.Star Re.Any) (translate_from 0 rest)
          else if N.eqb c qmark then Re.Cat Re.Any (translate_from 0 rest)
          else if N.eqb c lbracket then
            match bracket rest with
            | Some (stuff, _) =>
                Re.Cat (Re.Sym (in_class stuff))
                       (translate_from (length stuff + 1) rest)
            | None => Re.Cat (Re.Chr c) (translate_from 0 rest)
            end
          else Re.Cat (Re.Chr c) (translate_from 0 rest)
      end
  end.

Definition translate (pat : str) : Re.regex := translate_from 0 pat.

(** [fnmatch.fnmatch(name, pat)] on POSIX *)
Definition fnmatch (name pat : str) : bool := Re.re_fullmatch (translate pat) name.

(** [glob.has_magic(s)] *)
Definition has_magic (s : str) : bool :=
  existsb (fun c => N.eqb c star || N.eqb c qmark || N.eqb c lbracket) s.

Definition is_hidden (s : str) : bool := startswith (lit ".") s.

(** [glob1(dirname, pattern)]: the entries of the directory that match,
    hidden ones only for a pattern that starts with a period; a directory
    that cannot be listed has none. *)
Definition glob1 (fs : node) (dirname pattern : str) : list str :=
  let names := match listdir fs dirname with
               | Ok names => names
               | Raise _ => []
               end in
  let names := if is_hidden pattern then names
               else filter (fun x => negb (is_hidden x)) names in
  filter (fun name => fnmatch name pattern) names.

(** [glob0(dirname, basename)] *)
Definition glob0 (fs : node) (dirname basename : str) : list str :=
  match basename with
  | [] => if isdir fs dirname then [basename] else []
  | _ :: _ => if lexists fs (join dirname basename) then [basename] else []
  end.

(** [glob.iglob(pathname)]; the recursive call is on the directory part,
    which is shorter than [pathname]. *)
Fixpoint iglob (fuel : nat) (fs : node) (pathname : str) : list str :=
  match fuel with
  | O => []
  | S n =>
      let (dirname, basename) := os_path_split pathname in
      if negb (has_magic pathname) then
        match basename with
        | _ :: _ => if lexists fs pathname then [pathname] else []
        | [] => if isdir fs dirname then [pathname] else []
        end
      else
        match dirname with
        | [] => glob1 fs (lit ".") basename
        | _ :: _ =>
            let dirs :=
              if negb (str_eqb dirname pathname) && has_magic dirname
              then iglob n fs dirname
              else [dirname] in
            let glob_in_dir := if has_magic basename then glob1 else glob0 in
            flat_map
              (fun dirname =>
                 List.map (join dirname) (glob_in_dir fs dirname basename))
              dirs
        end
  end.

Definition glob (fs : node) (pathname : str) : list str :=
  iglob (S (length pathname)) fs pathname.

End Glob.

(** ** Strings and libraries of the script *)

(** unittest_dir = join('tests', 'unit') *)
Definition unittest_dir : str := join (lit "tests") (lit "unit").

Definition lib_casm : list str := [lit "libcasm.la"].

Definition boost_libs : list str :=
  [lit "$(BOOST_SYSTEM_LIB)";
   lit "$(BOOST_FILESYSTEM_LIB)";
   lit "$(BOOST_PROGRAM_OPTIONS_LIB)";
   lit "$(BOOST_REGEX_LIB)";
   lit "$(BOOST_CHRONO_LIB)"].

Definition boost_test_libs : list str := [lit "$(BOOST_UNIT_TEST_FRAMEWORK_LIB)"].

Definition lib_casm_testing : list str := [lit "libcasmtesting.a"].

(** ** has_tests *)

Definition has_tests (fs : node) (dir : str) : bool :=
  Nat.ltb 0 (length (Glob.glob fs (join dir (lit "*_test.cpp")))).

(** ** includedir *)

(** subpath_parts = dir.split(os.sep)[1:] *)
Definition subpath_parts (dir : str) : list str := tl (split sep dir).

(** subpathname = '_'.join(subpath_parts + ['include']) *)
Definition subpathname (dir : str) : str :=
  join_with [underscore] (subpath_parts dir ++ [lit "include"]).

(** The dictionary [data], keys in insertion order: [data[dir].append(file)]
    after [data[dir] = []] for a new key. *)
Fixpoint data_append (data : list (str * list str)) (dir file : str)
  : list (str * list str) :=
  match data with
  | [] => [(dir, [file])]
  | (d, filelist) :: rest =>
      if str_eqb d dir then (d, filelist ++ [file]) :: rest
      else (d, filelist) :: data_append rest dir file
  end.

(** The body of the second loop of [includedir], for one directory;
    [os.path.join] over [subpath_parts] needs one part at least. *)
Definition includedir_entry (f dir : str) (filelist : list str) : result str :=
  match subpath_parts dir with
  | [] => Raise TypeError
  | a :: p =>
      let subpath := join_all a p in
      let f := write f (subpathname dir ++ lit "dir=$(includedir)/" ++ subpath
                          ++ [nl; nl]) in
      Ok (write_option f (subpathname dir) (lit "HEADERS") filelist)
  end.

Definition includedir (fs : node) (f includedir : str)
    (include exclude : Re.regex) : result str :=
  files <- find_files fs includedir include exclude ;;
  let data :=
    fold_left (fun data file => data_append data (fst (os_path_split file)) file)
              files [] in
  fold_left (fun r '(dir, filelist) => f <- r ;; includedir_entry f dir filelist)
            data (Ok f).

(** The dictionary [data] when the first loop of [includedir] is over. *)
Definition includedir_data (files : list str) : list (str * list str) :=
  fold_left (fun data file => data_append data (fst (os_path_split file)) file)
            files [].

(** ** testdir and run_test_in *)

Definition extradist_ext : list str :=
  [lit "*.hh"; lit "*.cc"; lit "*.json"; lit "*.txt"].

(** The list [extradist_files] of [testdir]. *)
Definition testdir_extradist (fs : node) (group : str) : list str :=
  flat_map (fun ext => Glob.glob fs (join (join unittest_dir group) ext))
           extradist_ext.

(** The values of the SOURCES assignment of a group. *)
Definition testdir_sources (fs : node) (group : str) : list str :=
  [lit "tests/unit/unit_test.cpp"]
    ++ Glob.glob fs (join (join unittest_dir group) (lit "*_test.cpp")).

(** [testdir(f, group)]; what it prints is left out. *)
Definition testdir (fs : node) (f group : str) : str :=
  let loc := join unittest_dir group in
  let f := append_option f (lit "check") (lit "PROGRAMS") [lit "casm_unit_" ++ group] in
  let f := write_option f (lit "casm_unit_" ++ group) (lit "CXXFLAGS")
             [lit "$(AM_CXXFLAGS)"; lit "-I$(top_srcdir)/tests/unit/"] in
  let f := write_option f (lit "casm_unit_" ++ group) (lit "SOURCES")
             (testdir_sources fs group) in
  let f := write_option f (lit "casm_unit_" ++ group) (lit "LDADD")
             (lib_casm ++ boost_libs ++ boost_test_libs ++ lib_casm_testing) in
  let extradist_files := flat_map (fun ext => Glob.glob fs (join loc ext)) extradist_ext in
  let f := match length extradist_files with
           | O => f
           | S _ => append f (lit "EXTRA_DIST") extradist_files
           end in
  append f (lit "TESTS")
    [join_all (lit "tests") [lit "unit"; group; lit "run_test_" ++ group]].

(** [run_test_in(group)]: the name of the file it opens and the text it
    writes to it. *)
Definition run_test_in (group : str) : str * str :=
  let loc := join unittest_dir group in
  let f := [] in
  let f := write f (lit "#!/bin/bash" ++ [nl]) in
  let f := write f (lit "GROUP=" ++ group ++ [nl]) in
  let f := write f (lit "export PATH=@abs_top_builddir@:$PATH" ++ [nl]) in
  let f := write f (lit "cd @abs_top_srcdir@" ++ [nl]) in
  let f := write f (lit "mkdir -p @abs_top_srcdir@/tests/unit/test_projects" ++ [nl]) in
  let f := write f (lit ": ${TEST_FLAGS:=" ++ [dquote]
                      ++ lit "--log_level=test_suite --catch_system_errors=no"
                      ++ [dquote] ++ lit "}" ++ [nl]) in
  let f := write f (lit "@abs_top_builddir@/casm_unit_$GROUP ${TEST_FLAGS}" ++ [nl]) in
  (join loc (lit "run_test_" ++ group ++ lit ".in"), f).

(** ** main, the parts the properties are about *)

(** The include pattern '.*\.(c|cc|cpp|C)' of the library sources *)
Definition src_include : Re.regex :=
  Re.Cat (Re.Star Re.Dot)
    (Re.Cat (Re.Chr period)
       (Re.Alts (List.map Re.Lit [lit "c"; lit "cc"; lit "cpp"; lit "C"]))).

(** src_exclude = '(' + default_exclude + ')|(.*test_g(un)?zip.C)' *)
Definition src_exclude : Re.regex :=
  Re.Alt default_exclude
    (Re.Cat (Re.Star Re.Dot)
       (Re.Cat (Re.Lit (lit "test_g"))
          (Re.Cat (Re.Opt (Re.Lit (lit "un")))
             (Re.Cat (Re.Lit (lit "zip")) (Re.Cat Re.Dot (Re.Chr 67%N)))))).

(** The names [main] collects in [testnames]. *)
Definition testnames (fs : node) : result (list str) :=
  names <- listdir fs unittest_dir ;;
  Ok (filter (fun file_or_dir =>
                let test_dir := join unittest_dir file_or_dir in
                isdir fs test_dir && has_tests fs test_dir)
             names).

(** The fragment of an include root: the fragment file is opened for
    writing before [includedir] scans the root. *)
Definition main_include (fs : node) (dir : str) : result (str * str) :=
  let makemodule := join dir (lit "Makemodule.am") in
  _ <- open_w fs makemodule ;;
  f <- includedir fs [] dir default_include default_exclude ;;
  Ok (makemodule, f).

(** [makemodules] at the end of [main] *)
Definition makemodules : list str :=
  [join_all (lit "include") [lit "casm"; lit "Makemodule.am"];
   join_all (lit "include") [lit "ccasm"; lit "Makemodule.am"];
   join_all (lit "src") [lit "casm"; lit "Makemodule.am"];
   join_all (lit "src") [lit "ccasm"; lit "Makemodule.am"];
   join_all (lit "apps") [lit "ccasm"; lit "Makemodule.am"];
   join_all (lit "apps") [lit "completer"; lit "Makemodule.am"];
   join unittest_dir (lit "Makemodule.am")].

(** The lines spliced into Makefile.am *)
Definition makefile_lines : list str :=
  List.map (fun val => lit "include $(srcdir)/" ++ val ++ [nl]) makemodules.

(** The lines spliced into configure.ac *)
Definition configure_lines (testnames : list str) : list str :=
  List.map
    (fun name =>
       let runtest := join_all (lit "tests") [lit "unit"; name; lit "run_test_" ++ name] in
       lit "AC_CONFIG_FILES([" ++ runtest ++ lit "], [chmod +x " ++ runtest
         ++ lit "])" ++ [nl])
    testnames.

(** ** Vocabulary of the properties *)

(** [ls] is the list of lines of some text. *)
Definition lines_ok (ls : list str) : Prop := readlines (concat ls) = ls.

(** The state of [replace_lines] when the lines [ls] are still to be
    processed, the first of them being the current [line]. *)
Definition at_lines (lp : Splice.loop) (ls : list str) (acc : list str)
  : Splice.state :=
  Splice.State lp (hd [] ls) (concat (tl ls)) acc.

Definition halts (L : list str) (s : Splice.state) (out : list str) : Prop :=
  exists fuel, Splice.run L fuel s = Some out.

Definition loops (L : list str) (s : Splice.state) : Prop :=
  forall fuel, Splice.run L fuel s = None.

(** The inner loop is reached at the end of the file, where [readline]
    returns the empty string. *)
Definition reaches_inner_eof (L : list str) (s : Splice.state) : Prop :=
  exists n acc, Splice.after L n s = inl (Splice.State Splice.Inner [] [] acc).

Definition not_begin (l : str) : Prop := is_begin l = false.
Definition not_end (l : str) : Prop := is_end l = false.

(** What the two loops compute, on the lines of the file: lines are copied
    up to a begin marker; from there to the next end marker the lines are
    dropped and [L] takes their place. *)
Inductive spliced (L : list str) : list str -> list str -> Prop :=
| spliced_nil : spliced L [] []
| spliced_copy l ls out :
    not_begin l -> spliced L ls out -> spliced L (l :: ls) (l :: out)
| spliced_region b mid e post out :
    is_begin b = true -> Forall not_end mid -> is_end e = true ->
    spliced L post out ->
    spliced L (b :: mid ++ e :: post) (b :: L ++ e :: out).

(** The text is empty or ends in a line feed. *)
Definition ends_nl (s : str) : bool :=
  match rev s with
  | [] => true
  | c :: _ => N.eqb c nl
  end.

(** Lines that can be spliced again and again: their text ends in a line
    feed (or is empty) and none of its lines is the end marker. *)
Definition insertable (L : list str) : bool :=
  ends_nl (concat L) && forallb (fun l => negb (is_end l)) (readlines (concat L)).

(** Lines that can be spliced into a file again and again: read back from
    the file, their text ends in a line feed (or is empty) and none of its
    lines is the end marker. *)
Definition reinsertable (L : list str) : bool :=
  let text := read_text (concat L) in
  ends_nl text && forallb (fun l => negb (is_end l)) (readlines text).

(** A managed region and the lines after it, up to the next region:
    begin marker, content, end marker, lines that follow. *)
Definition region := (str * list str * str * list str)%type.

Definition region_ok (r : region) : Prop :=
  let '(b, mid, e, after) := r in
  is_begin b = true /\ Forall not_end mid /\ is_end e = true
  /\ Forall not_begin after.

Definition region_lines (r : region) : list str :=
  let '(b, mid, e, after) := r in b :: mid ++ e :: after.

Definition region_with (L : list str) (r : region) : list str :=
  let '(b, mid, e, after) := r in b :: L ++ e :: after.

(** The lines of values of an assignment: two spaces and the value, a
    backslash at the end of every line but the last, an empty line after
    the last. *)
Fixpoint value_lines (values : list str) : str :=
  match values with
  | [] => []
  | [v] => lit "  " ++ v ++ [nl; nl]
  | v :: vs => lit "  " ++ v ++ [bslash; nl] ++ value_lines vs
  end.

(** Some line of a script mentions both [export] and the variable. *)
Definition exports (var body : str) : bool :=
  existsb (fun l => contains (lit "export") l && contains var l)
          (readlines body).

(** A path component without underscore. *)
Definition no_underscore (part : str) : bool :=
  negb (existsb (N.eqb underscore) part).

(** The directories [os.walk] visits below [loc]. *)
Definition walked (fs : node) (loc : str) : list str :=
  List.map (fun t => fst (fst t)) (os_walk fs loc).

Definition mem (x : str) (l : list str) : bool := existsb (str_eqb x) l.

(** A name of a directory entry: not empty and without slash. *)
Definition entry_name (name : str) : bool :=
  negb (str_eqb name []) && negb (existsb (N.eqb sep) name).

(** The entries [glob] reports for ['*_test.cpp']: the name does not start
    with a period and ends in [_test.cpp]. *)
Definition is_test_source (name : str) : bool :=
  negb (Glob.is_hidden name) && endswith (lit "_test.cpp") name.

(** The pattern of a text without special characters. *)
Fixpoint plain (s : str) : Re.regex :=
  match s with
  | [] => Re.Eps
  | c :: s' => Re.Cat (Re.Chr c) (plain s')
  end.

(** The text of an assignment: nothing without values, else the header
    line and the lines of the values. *)
Definition assignment (header : str) (values : list str) : str :=
  match values with
  | [] => []
  | _ :: _ => header ++ value_lines values
  end.

(** Reading the lines in order, [inside] telling whether a begin marker is
    still waiting for its end marker: no begin marker is left waiting at
    the end of the file. *)
Fixpoint closed_regions (inside : bool) (ls : list str) : bool :=
  match ls with
  | [] => negb inside
  | l :: ls' =>
      if inside then closed_regions (negb (is_end l)) ls'
      else closed_regions (is_begin l) ls'
  end.

(** Below the directory [n] the directory names [segs] lead to a directory
    with the entries [es]. *)
Inductive dir_at : node -> list str -> list (str * node) -> Prop :=
| dir_here es : dir_at (Dir es) [] es
| dir_below es name sub segs es' :
    In (name, Dir sub) es -> dir_at (Dir sub) segs es' ->
    dir_at (Dir es) (name :: segs) es'.

(** The extensions of the default exclude pattern. *)
Definition excluded_exts : list str :=
  [lit "dirstamp"; lit "gitignore"; lit "am"; lit "hide"; lit "old";
   lit "orig"; lit "lo"; lit "Plo"; lit "o"].

(** [os.path.split(file)[0]] *)
Definition dirname (file : str) : str := fst (os_path_split file).

(** The files of a list that lie in the directory [dir]. *)
Definition files_in (dir : str) (files : list str) : list str :=
  filter (fun file => str_eqb (dirname file) dir) files.

(** What the first loop of [includedir] keeps true: the keys are distinct,
    the list of a key holds the files of that directory in the order they
    came, and every file that came has its directory among the keys. *)
Definition grouped (data : list (str * list str)) (seen : list str) : Prop :=
  NoDup (List.map fst data)
  /\ (forall dir fl, In (dir, fl) data -> fl <> [] /\ fl = files_in dir seen)
  /\ (forall file, In file seen -> In (dirname file) (List.map fst data)).

(** A path with underscores in the place of slashes. *)
Definition slashes_to_underscores (path : str) : str :=
  List.map (fun c => if N.eqb c sep then underscore else c) path.

(** The names of a directory as [glob] sees them: none when the directory
    cannot be listed. *)
Definition listed (fs : node) (dir : str) : list str :=
  match listdir fs dir with
  | Ok names => names
  | Raise _ => []
  end.

(** The entries [glob] reports for a star and a suffix: the name does not
    start with a period and ends in the suffix. *)
Definition visible_with_suffix (suffix name : str) : bool :=
  negb (Glob.is_hidden name) && endswith suffix name.

(** * Properties *)

(** ** Strings and lines *)

Lemma str_eqb_eq (a b : str) : str_eqb a b = true <-> a = b.
Proof.
  revert b; induction a as [|x a IH]; intros [|y b]; simpl; split;
    try discriminate; try reflexivity.
  - intros H. apply andb_true_iff in H as [H1 H2].
    apply N.eqb_eq in H1. apply IH in H2. congruence.
  - intros H. injection H as -> ->. rewrite N.eqb_refl. simpl. now apply IH.
Qed.

Lemma str_eqb_refl (a : str) : str_eqb a a = true.
Proof. now apply str_eqb_eq. Qed.

Lemma str_eqb_neq (a b : str) : str_eqb a b = false <-> a <> b.
Proof.
  split.
  - intros H E. apply str_eqb_eq in E. congruence.
  - intros H. destruct (str_eqb a b) eqn:E; [|reflexivity].
    apply str_eqb_eq in E. contradiction.
Qed.

Lemma existsb_eqb_In (c : char) (s : str) :
  existsb (N.eqb c) s = false <-> ~ In c s.
Proof.
  induction s as [|x s IH]; simpl.
  - tauto.
  - rewrite orb_false_iff, IH, N.eqb_neq. intuition congruence.
Qed.

Lemma begin_not_end (l : str) : is_begin l = true -> is_end l = false.
Proof.
  unfold is_begin, is_end. intros H. apply str_eqb_eq in H. rewrite H.
  reflexivity.
Qed.

Lemma is_begin_nonempty (l : str) : is_begin l = true -> l <> [].
Proof. intros H ->. discriminate H. Qed.

Lemma is_end_nonempty (l : str) : is_end l = true -> l <> [].
Proof. intros H ->. discriminate H. Qed.

Lemma readline_nil_inv (s : str) : fst (readline s) = [] -> s = [].
Proof.
  destruct s as [|c s]; [reflexivity|]. simpl.
  destruct (N.eqb c nl); [discriminate|].
  destruct (readline s). discriminate.
Qed.

Lemma readlines_nil_inv (s : str) : readlines s = [] -> s = [].
Proof.
  destruct s as [|c s]; [reflexivity|]. simpl.
  destruct (N.eqb c nl); [discriminate|].
  destruct (readlines s); discriminate.
Qed.

Lemma concat_readlines (s : str) : concat (readlines s) = s.
Proof.
  induction s as [|c s IH]; [reflexivity|]. simpl.
  destruct (N.eqb c nl).
  - simpl. now rewrite IH.
  - destruct (readlines s) as [|l ls] eqn:E.
    + apply readlines_nil_inv in E. now subst.
    + simpl in *. now rewrite IH.
Qed.

(** [readlines] is [readline] repeated. *)
Lemma readlines_readline (s : str) :
  s <> [] ->
  readlines s = fst (readline s) :: readlines (snd (readline s)).
Proof.
  induction s as [|c s IH]; [congruence|]. intros _. simpl.
  destruct (N.eqb c nl); [reflexivity|].
  destruct s as [|d s'].
  - reflexivity.
  - rewrite IH by discriminate. destruct (readline (d :: s')). reflexivity.
Qed.

Lemma readline_readlines (s : str) :
  readline s = (hd [] (readlines s), concat (tl (readlines s))).
Proof.
  destruct s as [|c s]; [reflexivity|].
  rewrite readlines_readline by discriminate. cbn [hd tl].
  rewrite concat_readlines. now destruct (readline (c :: s)).
Qed.

Lemma readline_app (s l r : str) :
  readline s = (l, r) -> r <> [] -> forall t, readline (l ++ t) = (l, t).
Proof.
  revert l r. induction s as [|c s IH]; intros l r; simpl.
  - intros [= <- <-]. congruence.
  - destruct (N.eqb c nl) eqn:E.
    + intros [= <- <-] _ t. simpl. now rewrite E.
    + destruct (readline s) as [l' r'] eqn:R. intros [= <- <-] H t.
      simpl. rewrite E. now rewrite (IH _ _ eq_refl H t).
Qed.

Lemma lines_ok_readlines (s : str) : lines_ok (readlines s).
Proof. unfold lines_ok. now rewrite concat_readlines. Qed.

Lemma lines_ok_readline (ls : list str) :
  lines_ok ls -> readline (concat ls) = (hd [] ls, concat (tl ls)).
Proof. intros H. rewrite readline_readlines. now rewrite H. Qed.

Lemma lines_ok_nonempty (l : str) (ls : list str) : lines_ok (l :: ls) -> l <> [].
Proof.
  intros H E. subst l. unfold lines_ok in H. simpl in H.
  destruct (concat ls) as [|c t] eqn:C; [discriminate H|].
  rewrite readlines_readline in H by discriminate.
  injection H as H1 _. apply (readline_nil_inv (c :: t)) in H1. discriminate.
Qed.

Lemma lines_ok_tl (l : str) (ls : list str) : lines_ok (l :: ls) -> lines_ok ls.
Proof.
  intros H. pose proof (lines_ok_nonempty H) as N.
  unfold lines_ok in *. simpl in H.
  rewrite readlines_readline in H by (destruct l; [congruence|discriminate]).
  injection H as H1 H2.
  rewrite <- H2 at 1. now rewrite concat_readlines.
Qed.

Lemma lines_ok_app_r (pre post : list str) : lines_ok (pre ++ post) -> lines_ok post.
Proof.
  induction pre as [|p pre IH]; [trivial|]. intros H. apply IH.
  exact (lines_ok_tl H).
Qed.

Lemma lines_ok_concat_nonempty (l : str) (ls : list str) :
  lines_ok (l :: ls) -> concat (l :: ls) <> [].
Proof.
  intros H E. apply lines_ok_nonempty in H. simpl in E.
  apply app_eq_nil in E as [E _]. contradiction.
Qed.

(** A line that is followed by another one ends where [readline] stops,
    whatever follows it. *)
Lemma lines_ok_cons_app (l : str) (ls : list str) :
  lines_ok (l :: ls) -> ls <> [] ->
  forall t, readlines (l ++ t) = l :: readlines t.
Proof.
  intros H N t. pose proof (lines_ok_nonempty H) as Nl.
  pose proof (lines_ok_readline H) as R. simpl in R.
  assert (C : concat ls <> []).
  { destruct ls as [|l2 ls']; [congruence|].
    apply lines_ok_concat_nonempty. exact (lines_ok_tl H). }
  pose proof (readline_app _ R C t) as Rt.
  rewrite readlines_readline by (destruct l; [congruence|discriminate]).
  now rewrite Rt.
Qed.

Lemma lines_ok_single (l : str) : lines_ok [l] -> readlines l = [l].
Proof. unfold lines_ok. simpl. now rewrite app_nil_r. Qed.

Lemma ends_nl_cons (c : char) (s : str) : s <> [] -> ends_nl (c :: s) = ends_nl s.
Proof.
  intros N. unfold ends_nl. simpl.
  destruct (rev s) as [|d r] eqn:E.
  - apply (f_equal (@rev char)) in E. rewrite rev_involutive in E. contradiction.
  - reflexivity.
Qed.

Lemma readlines_app (s t : str) :
  ends_nl s = true -> readlines (s ++ t) = readlines s ++ readlines t.
Proof.
  induction s as [|c s IH]; [reflexivity|]. intros H. simpl.
  destruct s as [|d s'].
  - unfold ends_nl in H. simpl in H. rewrite H. reflexivity.
  - rewrite ends_nl_cons in H by discriminate. rewrite (IH H).
    destruct (N.eqb c nl); [reflexivity|].
    destruct (readlines (d :: s')) as [|l ls] eqn:E; [|reflexivity].
    apply readlines_nil_inv in E. discriminate.
Qed.

(** ** The loops of replace_lines *)

Section Loops.

Variable L : list str.

Lemma halts_final (s : Splice.state) (out : list str) :
  Splice.step L s = inr out -> halts L s out.
Proof. intros H. exists 1. simpl. now rewrite H. Qed.

Lemma halts_step (s s' : Splice.state) (out : list str) :
  Splice.step L s = inl s' -> halts L s' out -> halts L s out.
Proof. intros H [n Hn]. exists (S n). simpl. now rewrite H. Qed.

Lemma loops_step (s s' : Splice.state) :
  Splice.step L s = inl s' -> loops L s' -> loops L s.
Proof. intros H Hl [|n]; [reflexivity|]. simpl. rewrite H. apply Hl. Qed.

Lemma run_mono (n m : nat) (s : Splice.state) (out : list str) :
  Splice.run L n s = Some out -> n <= m -> Splice.run L m s = Some out.
Proof.
  revert m s. induction n as [|n IH]; intros m s; [discriminate|].
  intros H Hle. destruct m as [|m]; [lia|]. simpl in *.
  destruct (Splice.step L s); [|exact H]. apply IH; [exact H|lia].
Qed.

Lemma halts_functional (s : Splice.state) (o1 o2 : list str) :
  halts L s o1 -> halts L s o2 -> o1 = o2.
Proof.
  intros [n Hn] [m Hm].
  apply (run_mono (m := Nat.max n m)) in Hn; [|lia].
  apply (run_mono (m := Nat.max n m)) in Hm; [|lia]. congruence.
Qed.

Lemma halts_not_loops (s : Splice.state) (out : list str) :
  halts L s out -> loops L s -> False.
Proof. intros [n Hn] Hl. rewrite Hl in Hn. discriminate. Qed.

Lemma step_outer_eof (acc : list str) :
  Splice.step L (at_lines Splice.Outer [] acc) = inr acc.
Proof. reflexivity. Qed.

Lemma step_outer_copy (l : str) (ls acc : list str) :
  lines_ok (l :: ls) -> not_begin l ->
  Splice.step L (at_lines Splice.Outer (l :: ls) acc)
  = inl (at_lines Splice.Outer ls (acc ++ [l])).
Proof.
  intros H B. pose proof (lines_ok_nonempty H) as N.
  unfold Splice.step, at_lines. cbn [Splice.at_loop Splice.line Splice.f
    Splice.lines_to_write hd tl].
  destruct l as [|c l]; [congruence|]. rewrite B.
  now rewrite (lines_ok_readline (lines_ok_tl H)).
Qed.

Lemma step_outer_begin (l : str) (ls acc : list str) :
  is_begin l = true ->
  Splice.step L (at_lines Splice.Outer (l :: ls) acc)
  = inl (at_lines Splice.Inner (l :: ls) ((acc ++ [l]) ++ L)).
Proof.
  intros B. pose proof (is_begin_nonempty B) as N.
  unfold Splice.step, at_lines. cbn [Splice.at_loop Splice.line Splice.f
    Splice.lines_to_write hd tl].
  destruct l as [|c l]; [congruence|]. now rewrite B.
Qed.

Lemma step_inner_skip (l : str) (ls acc : list str) :
  lines_ok (l :: ls) -> not_end l ->
  Splice.step L (at_lines Splice.Inner (l :: ls) acc)
  = inl (at_lines Splice.Inner ls acc).
Proof.
  intros H E. unfold Splice.step, at_lines. cbn [Splice.at_loop Splice.line
    Splice.f Splice.lines_to_write hd tl].
  rewrite E. cbn [negb]. now rewrite (lines_ok_readline (lines_ok_tl H)).
Qed.

Lemma step_inner_end (l : str) (ls acc : list str) :
  lines_ok (l :: ls) -> is_end l = true ->
  Splice.step L (at_lines Splice.Inner (l :: ls) acc)
  = inl (at_lines Splice.Outer ls (acc ++ [l])).
Proof.
  intros H E. unfold Splice.step, at_lines. cbn [Splice.at_loop Splice.line
    Splice.f Splice.lines_to_write hd tl].
  rewrite E. cbn [negb]. now rewrite (lines_ok_readline (lines_ok_tl H)).
Qed.

(** At the end of the file the inner loop reads the empty string again
    and again. *)
Lemma step_inner_eof (acc : list str) :
  Splice.step L (at_lines Splice.Inner [] acc)
  = inl (at_lines Splice.Inner [] acc).
Proof. reflexivity. Qed.

Lemma inner_eof_loops (acc : list str) : loops L (at_lines Splice.Inner [] acc).
Proof.
  intros n. induction n as [|n IH]; [reflexivity|].
  cbn [Splice.run]. rewrite step_inner_eof. exact IH.
Qed.

Lemma reaches_inner_eof_step (s s' : Splice.state) :
  Splice.step L s = inl s' -> reaches_inner_eof L s' -> reaches_inner_eof L s.
Proof. intros H (n & acc & K). exists (S n), acc. simpl. now rewrite H. Qed.

Lemma reaches_inner_eof_now (acc : list str) :
  reaches_inner_eof L (at_lines Splice.Inner [] acc).
Proof. exists 0, acc. reflexivity. Qed.

Section Backward.

(** A property of states that holds at a state when it holds one iteration
    later, and that holds in the inner loop at the end of the file. *)
Variable P : Splice.state -> Prop.
Hypothesis P_step : forall s s', Splice.step L s = inl s' -> P s' -> P s.
Hypothesis P_eof : forall acc, P (at_lines Splice.Inner [] acc).

Lemma inner_no_end (ls acc : list str) :
  lines_ok ls -> Forall not_end ls -> P (at_lines Splice.Inner ls acc).
Proof.
  induction ls as [|l ls IH]; intros H F.
  - apply P_eof.
  - inversion F as [|? ? Hl Hls]; subst.
    eapply P_step; [apply step_inner_skip; assumption|].
    apply IH; [exact (lines_ok_tl H)|exact Hls].
Qed.

(** A begin marker with no end marker after it, whichever loop reaches
    the marker. *)
Lemma begin_no_end (pre : list str) (b : str) (rest : list str) :
  lines_ok (pre ++ b :: rest) -> is_begin b = true -> Forall not_end rest ->
  forall lp acc, P (at_lines lp (pre ++ b :: rest) acc).
Proof.
  intros H B F. induction pre as [|p pre IH]; intros lp acc.
  - assert (K : forall acc', P (at_lines Splice.Inner (b :: rest) acc')).
    { intros acc'. apply inner_no_end; [exact H|].
      constructor; [now apply begin_not_end|exact F]. }
    destruct lp; [|apply K].
    eapply P_step; [apply step_outer_begin; exact B|apply K].
  - pose proof (lines_ok_tl H) as Ht. specialize (IH Ht).
    cbn [app] in *. destruct lp.
    + destruct (is_begin p) eqn:Bp.
      * eapply P_step; [apply step_outer_begin; exact Bp|].
        eapply P_step;
          [apply step_inner_skip; [exact H|now apply begin_not_end]|].
        apply IH.
      * eapply P_step; [apply step_outer_copy; assumption|]. apply IH.
    + destruct (is_end p) eqn:Ep.
      * eapply P_step; [apply step_inner_end; assumption|]. apply IH.
      * eapply P_step; [apply step_inner_skip; assumption|]. apply IH.
Qed.

End Backward.

(** The inner loop drops the lines up to the next end marker. *)
Lemma inner_skips (mid : list str) (e : str) (post acc : list str) (out : list str) :
  lines_ok (mid ++ e :: post) -> Forall not_end mid -> is_end e = true ->
  halts L (at_lines Splice.Outer post (acc ++ [e])) out ->
  halts L (at_lines Splice.Inner (mid ++ e :: post) acc) out.
Proof.
  induction mid as [|m mid IH]; intros H F E K.
  - eapply halts_step; [apply step_inner_end; assumption|exact K].
  - inversion F as [|? ? Hm Hmid]; subst.
    eapply halts_step; [apply step_inner_skip; assumption|].
    apply IH; try assumption. exact (lines_ok_tl H).
Qed.

(** The loops compute [spliced]. *)
Lemma spliced_halts (ls out : list str) :
  spliced L ls out -> lines_ok ls ->
  forall acc, halts L (at_lines Splice.Outer ls acc) (acc ++ out).
Proof.
  induction 1 as [|l ls out B S IH|b mid e post out B F E S IH]; intros H acc.
  - rewrite app_nil_r. apply halts_final, step_outer_eof.
  - eapply halts_step; [apply step_outer_copy; assumption|].
    replace (acc ++ l :: out) with ((acc ++ [l]) ++ out)
      by (rewrite <- app_assoc; reflexivity).
    apply IH. exact (lines_ok_tl H).
  - eapply halts_step; [apply step_outer_begin; assumption|].
    change (b :: mid ++ e :: post) with ((b :: mid) ++ e :: post).
    apply inner_skips; try assumption.
    + constructor; [now apply begin_not_end|assumption].
    + replace (acc ++ b :: L ++ e :: out)
        with ((((acc ++ [b]) ++ L) ++ [e]) ++ out)
        by (repeat rewrite <- app_assoc; reflexivity).
      apply IH. apply (@lines_ok_tl e). exact (lines_ok_app_r (b :: mid) (e :: post) H).
Qed.

Lemma begin_no_end_loops (pre : list str) (b : str) (rest : list str) :
  lines_ok (pre ++ b :: rest) -> is_begin b = true -> Forall not_end rest ->
  forall lp acc, loops L (at_lines lp (pre ++ b :: rest) acc).
Proof. apply (@begin_no_end (loops L)); [apply loops_step|apply inner_eof_loops]. Qed.

Lemma inner_skips_loops (mid : list str) (e : str) (post acc : list str) :
  lines_ok (mid ++ e :: post) -> Forall not_end mid -> is_end e = true ->
  loops L (at_lines Splice.Outer post (acc ++ [e])) ->
  loops L (at_lines Splice.Inner (mid ++ e :: post) acc).
Proof.
  induction mid as [|m mid IH]; intros H F E K.
  - eapply loops_step; [apply step_inner_end; assumption|exact K].
  - inversion F as [|? ? Hm Hmid]; subst.
    eapply loops_step; [apply step_inner_skip; assumption|].
    apply IH; try assumption. exact (lines_ok_tl H).
Qed.

Lemma first_end (ls : list str) :
  Forall not_end ls \/
  exists mid e post,
    ls = mid ++ e :: post /\ Forall not_end mid /\ is_end e = true.
Proof.
  induction ls as [|l ls IH]; [left; constructor|].
  destruct (is_end l) eqn:E.
  - right. exists [], l, ls. repeat split; [constructor|exact E].
  - destruct IH as [F|(mid & e & post & -> & F & Ee)].
    + left. constructor; assumption.
    + right. exists (l :: mid), e, post. repeat split; [|exact Ee].
      constructor; assumption.
Qed.

(** On every file the loops either compute [spliced] or never exit. *)
Lemma spliced_or_loops (n : nat) (ls : list str) :
  length ls <= n -> lines_ok ls ->
  (exists out, spliced L ls out)
  \/ (forall acc, loops L (at_lines Splice.Outer ls acc)).
Proof.
  revert ls. induction n as [|n IH]; intros ls Hn H.
  - destruct ls; [|simpl in Hn; lia]. left. exists []. constructor.
  - destruct ls as [|l ls]; [left; exists []; constructor|].
    simpl in Hn. pose proof (lines_ok_tl H) as Ht.
    destruct (is_begin l) eqn:B.
    + destruct (first_end ls) as [F|(mid & e & post & -> & F & E)].
      * right. intros acc. exact (@begin_no_end_loops [] l ls H B F Splice.Outer acc).
      * assert (Hp : lines_ok post).
        { apply (@lines_ok_tl e). exact (lines_ok_app_r mid (e :: post) Ht). }
        assert (Lp : length post <= n).
        { rewrite length_app in Hn. simpl in Hn. lia. }
        destruct (IH post Lp Hp) as [[out S]|K].
        -- left. exists (l :: L ++ e :: out). now constructor.
        -- right. intros acc.
           eapply loops_step; [apply step_outer_begin; exact B|].
           change (l :: mid ++ e :: post) with ((l :: mid) ++ e :: post).
           apply inner_skips_loops; try assumption.
           ++ constructor; [now apply begin_not_end|assumption].
           ++ apply K.
    + destruct (IH ls ltac:(lia) Ht) as [[out S]|K].
      * left. exists (l :: out). now constructor.
      * right. intros acc.
        eapply loops_step; [apply step_outer_copy; assumption|]. apply K.
Qed.

Lemma halts_spliced (ls acc out : list str) :
  lines_ok ls -> halts L (at_lines Splice.Outer ls acc) out ->
  exists outl, spliced L ls outl /\ out = acc ++ outl.
Proof.
  intros H K.
  destruct (spliced_or_loops (le_n (length ls)) H) as [[outl S]|N].
  - exists outl. split; [exact S|].
    exact (halts_functional K (spliced_halts S H acc)).
  - exfalso. exact (halts_not_loops K (N acc)).
Qed.

Lemma spliced_nil_inv (out : list str) : spliced L [] out -> out = [].
Proof.
  inversion 1. reflexivity.
Qed.

(** Splicing [L] into a file that was spliced with [L]. *)
Lemma spliced_again (ls out : list str) :
  insertable L = true -> spliced L ls out -> lines_ok ls ->
  exists out',
    spliced L (readlines (concat out)) out' /\ concat out' = concat out.
Proof.
  intros I. apply andb_true_iff in I as [I1 I2].
  assert (FL : Forall not_end (readlines (concat L))).
  { apply Forall_forall. intros x Hx.
    rewrite forallb_forall in I2. specialize (I2 x Hx).
    unfold not_end. now destruct (is_end x). }
  induction 1 as [|l ls out B S IH|b mid e post out B F E S IH]; intros H.
  - exists []. split; [constructor|reflexivity].
  - destruct ls as [|l2 ls'].
    + apply spliced_nil_inv in S. subst out. exists [l]. simpl.
      rewrite app_nil_r. rewrite (lines_ok_single H).
      split; [|reflexivity]. constructor; [exact B|constructor].
    + destruct (IH (lines_ok_tl H)) as (out' & S' & C').
      exists (l :: out'). cbn [concat].
      rewrite (lines_ok_cons_app H) by discriminate.
      split; [now constructor|now rewrite C'].
  - assert (He : lines_ok (e :: post)).
    { exact (lines_ok_app_r (b :: mid) (e :: post) H). }
    destruct (IH (lines_ok_tl He)) as (out' & S' & C').
    exists (b :: L ++ e :: out'). split.
    + cbn [concat]. rewrite concat_app. cbn [concat].
      rewrite (lines_ok_cons_app H)
        by (destruct mid; discriminate).
      rewrite (readlines_app _ _ I1).
      assert (R : readlines (e ++ concat out) = e :: readlines (concat out)).
      { destruct post as [|p post'].
        - apply spliced_nil_inv in S. subst out. simpl.
          rewrite app_nil_r. exact (lines_ok_single He).
        - apply (lines_ok_cons_app He). discriminate. }
      rewrite R. now constructor.
    + cbn [concat]. rewrite !concat_app. cbn [concat]. now rewrite C'.
Qed.

End Loops.

(** ** replace_lines on the text of the file *)

Lemma start_at_lines (content : str) :
  Splice.start content = at_lines Splice.Outer (readlines content) [].
Proof.
  unfold Splice.start, at_lines. now rewrite readline_readlines.
Qed.

Lemma returns_iff_halts (L : list str) (content out : str) :
  replace_lines_returns L content out <->
  exists outl,
    halts L (at_lines Splice.Outer (readlines content) []) outl
    /\ out = concat outl.
Proof.
  unfold replace_lines_returns, replace_lines, halts.
  rewrite start_at_lines. split.
  - intros [n H].
    destruct (Splice.run L n _) as [outl|] eqn:R; [|discriminate].
    injection H as <-. exists outl. split; [now exists n|reflexivity].
  - intros (outl & [n R] & ->). exists n. now rewrite R.
Qed.

Lemma diverges_iff_loops (L : list str) (content : str) :
  replace_lines_diverges L content <->
  loops L (at_lines Splice.Outer (readlines content) []).
Proof.
  unfold replace_lines_diverges, replace_lines, loops.
  rewrite start_at_lines. split; intros H n; specialize (H n).
  - now destruct (Splice.run L n _).
  - now rewrite H.
Qed.

(** [replace_lines] returns exactly when the lines of the file splice. *)
Lemma returns_spliced (L : list str) (content out : str) :
  replace_lines_returns L content out <->
  exists outl, spliced L (readlines content) outl /\ out = concat outl.
Proof.
  rewrite returns_iff_halts. split.
  - intros (outl & K & ->).
    destruct (halts_spliced (lines_ok_readlines content) K) as (o & S & ->).
    now exists o.
  - intros (outl & S & ->). exists outl. split; [|reflexivity].
    exact (spliced_halts S (lines_ok_readlines content) []).
Qed.

Lemma spliced_no_begin (L ls : list str) :
  Forall not_begin ls -> spliced L ls ls.
Proof. induction 1; constructor; assumption. Qed.

Lemma spliced_app (L pre ls out : list str) :
  Forall not_begin pre -> spliced L ls out -> spliced L (pre ++ ls) (pre ++ out).
Proof. induction 1; intros S; simpl; [exact S|]. constructor; auto. Qed.

Lemma spliced_regions (L : list str) (regions : list region) :
  Forall region_ok regions ->
  spliced L (flat_map region_lines regions) (flat_map (region_with L) regions).
Proof.
  induction 1 as [|[[[b mid] e] after] rs (B & F & E & A) _ IH].
  - constructor.
  - cbn [flat_map region_lines region_with app].
    rewrite <- !app_assoc. cbn [app].
    apply spliced_region; try assumption. now apply spliced_app.
Qed.

Lemma returns_functional (L : list str) (content o1 o2 : str) :
  replace_lines_returns L content o1 -> replace_lines_returns L content o2 ->
  o1 = o2.
Proof.
  intros K1 K2. apply returns_iff_halts in K1 as (l1 & H1 & ->).
  apply returns_iff_halts in K2 as (l2 & H2 & ->).
  now rewrite (halts_functional H1 H2).
Qed.

(** Splicing [L'] into a file that was spliced with [L] gives what splicing
    [L'] into the file itself gives. *)
Lemma spliced_resplice (L L' ls out : list str) :
  insertable L = true -> spliced L ls out -> lines_ok ls ->
  exists o2 o2',
    spliced L' ls o2
    /\ spliced L' (readlines (concat out)) o2'
    /\ concat o2' = concat o2.
Proof.
  intros I. apply andb_true_iff in I as [I1 I2].
  assert (FL : Forall not_end (readlines (concat L))).
  { apply Forall_forall. intros x Hx.
    rewrite forallb_forall in I2. specialize (I2 x Hx).
    unfold not_end. now destruct (is_end x). }
  induction 1 as [|l ls out B S IH|b mid e post out B F E S IH]; intros H.
  - exists [], []. repeat split; constructor.
  - destruct ls as [|l2 ls'].
    + apply spliced_nil_inv in S. subst out. exists [l], [l]. simpl.
      rewrite app_nil_r. rewrite (lines_ok_single H).
      repeat split; (constructor; [exact B|constructor]).
    + destruct (IH (lines_ok_tl H)) as (o2 & o2' & S2 & S2' & C).
      exists (l :: o2), (l :: o2'). cbn [concat].
      rewrite (lines_ok_cons_app H) by discriminate.
      repeat split; [now constructor|now constructor|now rewrite C].
  - assert (He : lines_ok (e :: post)).
    { exact (lines_ok_app_r (b :: mid) (e :: post) H). }
    destruct (IH (lines_ok_tl He)) as (o2 & o2' & S2 & S2' & C).
    exists (b :: L' ++ e :: o2), (b :: L' ++ e :: o2'). repeat split.
    + now apply spliced_region.
    + cbn [concat]. rewrite concat_app. cbn [concat].
      rewrite (lines_ok_cons_app H) by (destruct mid; discriminate).
      rewrite (readlines_app _ _ I1).
      assert (R : readlines (e ++ concat out) = e :: readlines (concat out)).
      { destruct post as [|p post'].
        - apply spliced_nil_inv in S. subst out. simpl.
          rewrite app_nil_r. exact (lines_ok_single He).
        - apply (lines_ok_cons_app He). discriminate. }
      rewrite R. now apply spliced_region.
    + cbn [concat]. rewrite !concat_app. cbn [concat]. now rewrite C.
Qed.

(** ** The characters a file stores *)

Lemma newline_decode_no_cr (b : bool) (s : str) : ~ In cr (newline_decode b s).
Proof.
  revert b. induction s as [|c s IH]; intros b; cbn [newline_decode]; [tauto|].
  destruct (N.eqb c cr) eqn:E.
  - intros [H|H]; [discriminate H|exact (IH _ H)].
  - destruct (N.eqb c nl && b); [apply IH|].
    intros [H|H]; [|exact (IH _ H)]. subst c. now rewrite N.eqb_refl in E.
Qed.

(** Without carriage return the text read is the text stored. *)
Lemma read_text_app_without_cr (s t : str) :
  ~ In cr s -> read_text (s ++ t) = s ++ read_text t.
Proof.
  unfold read_text. induction s as [|c s IH]; [reflexivity|]. intros N.
  cbn [app newline_decode]. destruct (N.eqb c cr) eqn:E.
  - apply N.eqb_eq in E. exfalso. apply N. now left.
  - rewrite andb_false_r. rewrite IH; [reflexivity|]. intros H. apply N. now right.
Qed.

Lemma read_text_without_cr (s : str) : ~ In cr s -> read_text s = s.
Proof.
  intros N. rewrite <- (app_nil_r s) at 1.
  rewrite read_text_app_without_cr by exact N. apply app_nil_r.
Qed.

Lemma read_text_read_text (s : str) : read_text (read_text s) = read_text s.
Proof. apply read_text_without_cr, newline_decode_no_cr. Qed.

(** Reading a text goes piece by piece, unless a piece that starts with a
    line feed follows a carriage return. *)
Lemma newline_decode_app (b : bool) (s t : str) :
  hd 0%N t <> nl ->
  newline_decode b (s ++ t) = newline_decode b s ++ read_text t.
Proof.
  intros H. revert b. induction s as [|c s IH]; intros b.
  - cbn [app newline_decode]. destruct t as [|c t]; [reflexivity|].
    unfold read_text. cbn [newline_decode hd] in *.
    destruct (N.eqb c cr); [reflexivity|].
    destruct (N.eqb c nl) eqn:E; [|reflexivity].
    apply N.eqb_eq in E. contradiction.
  - cbn [app newline_decode]. destruct (N.eqb c cr); [now rewrite IH|].
    destruct (N.eqb c nl && b); now rewrite IH.
Qed.

Lemma readlines_without (c : char) (s : str) :
  ~ In c s -> Forall (fun l => ~ In c l) (readlines s).
Proof.
  intros N. apply Forall_forall. intros l Hl Hc. apply N.
  rewrite <- (concat_readlines s). apply in_concat. now exists l.
Qed.

Lemma drop_while_snoc (p : char -> bool) (l : str) (c : char) :
  drop_while p (l ++ [c]) = [] \/ exists r, drop_while p (l ++ [c]) = r ++ [c].
Proof.
  induction l as [|x l IH]; cbn [app drop_while].
  - destruct (p c); [now left|right; now exists []].
  - destruct (p x); [exact IH|right; now exists (x :: l)].
Qed.

(** [rstrip] leaves nothing, or a text with the same first character. *)
Lemma rstrip_first (c : char) (s : str) :
  rstrip (c :: s) = [] \/ exists r, rstrip (c :: s) = c :: r.
Proof.
  unfold rstrip. cbn [rev].
  destruct (drop_while_snoc py_isspace (rev s) c) as [E|[r E]].
  - left. fold char in *. now rewrite E.
  - right. exists (rev r). fold char in *. rewrite E. now rewrite rev_app_distr.
Qed.

(** An end marker starts with the number sign. *)
Lemma is_end_first (e : str) : is_end e = true -> hd 0%N e = 35%N.
Proof.
  unfold is_end. destruct e as [|c e]; [discriminate|]. cbn [hd].
  destruct (rstrip_first c e) as [E|[r E]]; fold char str in *; rewrite E.
  - discriminate.
  - cbn [END_MAKEMODULE str_eqb]. intros H.
    change END_MAKEMODULE with (35%N :: lit " END MAKEMODULE") in H.
    cbn [str_eqb] in H. apply andb_true_iff in H as [H _].
    now apply N.eqb_eq in H.
Qed.

(** What one run writes, as the next run reads it: the lines of the file
    are read as they were written, the inserted lines as their text is
    decoded. *)
Lemma spliced_stored (L ls out : list str) :
  spliced L ls out -> Forall (fun l => ~ In cr l) ls ->
  exists out',
    spliced [read_text (concat L)] ls out'
    /\ read_text (concat out) = concat out'.
Proof.
  induction 1 as [|l ls out B S IH|b mid e post out B F E S IH]; intros N.
  - exists []. split; [constructor|reflexivity].
  - destruct (IH (Forall_inv_tail N)) as (out' & S' & C').
    exists (l :: out'). split; [now constructor|]. cbn [concat].
    rewrite read_text_app_without_cr by exact (Forall_inv N). now rewrite C'.
  - pose proof (Forall_inv N) as Nb.
    apply Forall_inv_tail, Forall_app in N as [_ N].
    pose proof (Forall_inv N) as Ne.
    destruct (IH (Forall_inv_tail N)) as (out' & S' & C').
    exists (b :: [read_text (concat L)] ++ e :: out').
    split; [now apply spliced_region|].
    cbn [concat app]. rewrite concat_app. cbn [concat].
    rewrite read_text_app_without_cr by exact Nb.
    unfold read_text at 1. rewrite newline_decode_app.
    + rewrite read_text_app_without_cr by exact Ne. now rewrite C'.
    + destruct e as [|c e']; [discriminate E|]. cbn [app hd].
      apply is_end_first in E. cbn [hd] in E. rewrite E. discriminate.
Qed.

Lemma reinsertable_insertable (L : list str) :
  reinsertable L = true -> insertable [read_text (concat L)] = true.
Proof. unfold reinsertable, insertable. cbn [concat]. now rewrite app_nil_r. Qed.

(** Lines without carriage return can be spliced into a file again and
    again when they can be spliced into its text again and again. *)
Lemma insertable_reinsertable (L : list str) :
  ~ In cr (concat L) -> insertable L = true -> reinsertable L = true.
Proof.
  intros N I. unfold reinsertable. now rewrite read_text_without_cr by exact N.
Qed.

Lemma file_returns_spliced (L : list str) (stored out : str) :
  replace_lines_file_returns L stored out <->
  exists outl,
    spliced L (readlines (read_text stored)) outl /\ out = concat outl.
Proof. exact (returns_spliced L (read_text stored) out). Qed.

(** A second run on the file that a run with [L] left: with the lines [L']
    it leaves what a run with [L'] leaves of the file as it was. *)
Lemma file_resplice (L L' : list str) (stored once : str) :
  reinsertable L = true ->
  replace_lines_file_returns L stored once ->
  forall out,
    replace_lines_file_returns L' once out
    <-> replace_lines_file_returns L' stored out.
Proof.
  intros I K out. apply file_returns_spliced in K as (outl & S & ->).
  destruct (spliced_stored S) as (outm & Sm & Cm).
  { apply readlines_without, newline_decode_no_cr. }
  destruct (@spliced_resplice _ L' _ _ (reinsertable_insertable L I) Sm
              (lines_ok_readlines (read_text stored)))
    as (o2 & o2' & S2 & S2' & C).
  assert (K1 : replace_lines_file_returns L' (concat outl) (concat o2)).
  { apply file_returns_spliced. exists o2'. rewrite Cm. now split. }
  assert (K2 : replace_lines_file_returns L' stored (concat o2)).
  { apply file_returns_spliced. exists o2. now split. }
  split; intros K.
  - now rewrite (returns_functional K K1).
  - now rewrite (returns_functional K K2).
Qed.

(** ** The claims on replace_lines *)

(** On the text read from a file with one begin-marker line [b] and one
    later end-marker line [e], the loops return the text before the pair, the
    begin marker, the new lines, the end marker and the text after the pair,
    and nothing else. *)
Lemma splices_region_decoded
    (L pre mid post : list str) (b e : str) (content : str) :
  readlines content = pre ++ b :: mid ++ e :: post ->
  is_begin b = true -> is_end e = true ->
  Forall not_begin (pre ++ mid ++ post) ->
  Forall not_end (pre ++ mid ++ post) ->
  replace_lines_returns L content
    (concat pre ++ b ++ concat L ++ e ++ concat post)
  /\ forall out, replace_lines_returns L content out ->
       out = concat pre ++ b ++ concat L ++ e ++ concat post.
Proof.
  intros R B E FB FE.
  apply Forall_app in FB as [FBpre FB]. apply Forall_app in FB as [_ FBpost].
  apply Forall_app in FE as [_ FE]. apply Forall_app in FE as [FEmid _].
  assert (S : spliced L (readlines content) (pre ++ b :: L ++ e :: post)).
  { rewrite R. apply spliced_app; [exact FBpre|].
    apply spliced_region; try assumption. now apply spliced_no_begin. }
  assert (C : concat (pre ++ b :: L ++ e :: post)
              = concat pre ++ b ++ concat L ++ e ++ concat post).
  { rewrite concat_app. cbn [concat]. rewrite concat_app. reflexivity. }
  assert (K : replace_lines_returns L content
                (concat pre ++ b ++ concat L ++ e ++ concat post)).
  { apply returns_spliced. eexists. split; [exact S|now rewrite C]. }
  split; [exact K|].
  intros out K'. exact (returns_functional K' K).
Qed.

(** C2, as the claim has it, fails on a host file whose lines end in
    carriage return and line feed: the file is read in text mode, and the
    text before and after the marker pair and the two marker lines are
    written back with a line feed alone at the end of every line. *)
Lemma replace_lines_crlf_counterexample :
  let L := [lit "new" ++ [nl]] in
  let stored :=
    lit "x" ++ [cr; nl] ++ BEGIN_MAKEMODULE ++ [cr; nl] ++ lit "old" ++ [cr; nl]
      ++ END_MAKEMODULE ++ [cr; nl] ++ lit "y" ++ [cr; nl] in
  let out :=
    lit "x" ++ [nl] ++ BEGIN_MAKEMODULE ++ [nl] ++ lit "new" ++ [nl]
      ++ END_MAKEMODULE ++ [nl] ++ lit "y" ++ [nl] in
  is_begin (BEGIN_MAKEMODULE ++ [cr; nl]) = true
  /\ is_end (END_MAKEMODULE ++ [cr; nl]) = true
  /\ replace_lines_file 20 L stored = Some out
  /\ startswith (lit "x" ++ [cr; nl] ++ BEGIN_MAKEMODULE ++ [cr; nl]) stored = true
  /\ startswith (lit "x" ++ [cr; nl] ++ BEGIN_MAKEMODULE ++ [cr; nl]) out = false
  /\ endswith (END_MAKEMODULE ++ [cr; nl] ++ lit "y" ++ [cr; nl]) stored = true
  /\ endswith (END_MAKEMODULE ++ [cr; nl] ++ lit "y" ++ [cr; nl]) out = false.
Proof. repeat split; vm_compute; reflexivity. Qed.

(** C2, amended.  Take a host file in which, read in text mode, one line
    [b] is a begin marker and one later line [e] is an end marker.
    [replace_lines] returns and leaves in the file the text before the pair,
    the begin marker, the new lines in the given order, the end marker and
    the text after the pair, all of it as read in text mode, that is with a
    line feed in the place of every carriage return and of every carriage
    return with its line feed; this is the only result.  When the file
    stores no carriage return, the text outside the pair and the two marker
    lines are the stored characters themselves. *)
Theorem replace_lines_splices_region
    (L pre mid post : list str) (b e : str) (stored : str) :
  readlines (read_text stored) = pre ++ b :: mid ++ e :: post ->
  is_begin b = true -> is_end e = true ->
  Forall not_begin (pre ++ mid ++ post) ->
  Forall not_end (pre ++ mid ++ post) ->
  read_text stored = concat pre ++ b ++ concat mid ++ e ++ concat post
  /\ replace_lines_file_returns L stored
       (concat pre ++ b ++ concat L ++ e ++ concat post)
  /\ (forall out, replace_lines_file_returns L stored out ->
        out = concat pre ++ b ++ concat L ++ e ++ concat post)
  /\ (~ In cr stored ->
      stored = concat pre ++ b ++ concat mid ++ e ++ concat post).
Proof.
  intros R B E FB FE.
  assert (T : read_text stored
              = concat pre ++ b ++ concat mid ++ e ++ concat post).
  { rewrite <- (concat_readlines (read_text stored)), R.
    rewrite concat_app. cbn [concat]. now rewrite concat_app. }
  destruct (@splices_region_decoded L pre mid post b e (read_text stored)
              R B E FB FE) as [K U].
  split; [exact T|]. split; [exact K|]. split; [exact U|].
  intros N. now rewrite <- T, read_text_without_cr.
Qed.

Lemma replace_lines_splices_region_witness :
  let L := [lit "a.frag" ++ [nl]; lit "b.frag" ++ [nl]] in
  let stored :=
    lit "x" ++ [cr; nl] ++ BEGIN_MAKEMODULE ++ [nl] ++ lit "stale" ++ [nl]
      ++ END_MAKEMODULE ++ [nl] ++ lit "y" in
  replace_lines_file_returns L stored
    (lit "x" ++ [nl] ++ BEGIN_MAKEMODULE ++ [nl] ++ lit "a.frag" ++ [nl]
       ++ lit "b.frag" ++ [nl] ++ END_MAKEMODULE ++ [nl] ++ lit "y").
Proof.
  intros L stored.
  apply (@replace_lines_splices_region L
           [lit "x" ++ [nl]] [lit "stale" ++ [nl]] [lit "y"]
           (BEGIN_MAKEMODULE ++ [nl]) (END_MAKEMODULE ++ [nl]) stored).
  - vm_compute. reflexivity.
  - vm_compute. reflexivity.
  - vm_compute. reflexivity.
  - repeat constructor.
  - repeat constructor.
Defined.

(** C10.  When the host file has a begin-marker line with no end-marker
    line after it, [replace_lines] does not terminate: it gets into the
    inner loop at the end of the file, where every iteration reads the empty
    string and leaves the state as it is, so that the file is never
    rewritten. *)
Theorem replace_lines_unterminated_region_diverges
    (L pre rest : list str) (b : str) (content : str) :
  readlines content = pre ++ b :: rest ->
  is_begin b = true -> Forall not_end rest ->
  replace_lines_diverges L content
  /\ reaches_inner_eof L (Splice.start content)
  /\ forall acc,
       Splice.step L (Splice.State Splice.Inner [] [] acc)
       = inl (Splice.State Splice.Inner [] [] acc).
Proof.
  intros R B F.
  assert (H : lines_ok (pre ++ b :: rest)).
  { rewrite <- R. apply lines_ok_readlines. }
  repeat split.
  - apply diverges_iff_loops. rewrite R.
    now apply begin_no_end_loops.
  - rewrite start_at_lines, R.
    apply (@begin_no_end L (reaches_inner_eof L)); try assumption.
    + apply reaches_inner_eof_step.
    + apply reaches_inner_eof_now.
Qed.

Lemma replace_lines_unterminated_region_diverges_witness :
  replace_lines_diverges [lit "new" ++ [nl]]
    (lit "x" ++ [nl] ++ BEGIN_MAKEMODULE ++ [nl] ++ lit "old" ++ [nl]).
Proof.
  apply (@replace_lines_unterminated_region_diverges [lit "new" ++ [nl]]
           [lit "x" ++ [nl]] [lit "old" ++ [nl]] (BEGIN_MAKEMODULE ++ [nl])).
  - vm_compute. reflexivity.
  - vm_compute. reflexivity.
  - repeat constructor.
Defined.

(** C5, as the claim has it, fails: a host file without any marker is
    rewritten (with its own text), and a host file with the marker pair
    twice is rewritten with both regions replaced; [replace_lines] returns
    normally on both. *)
Lemma replace_lines_malformed_host_counterexample :
  let L := [lit "new" ++ [nl]] in
  replace_lines 10 L (lit "x" ++ [nl] ++ lit "y" ++ [nl])
  = Some (lit "x" ++ [nl] ++ lit "y" ++ [nl])
  /\ replace_lines 20 L
       (BEGIN_MAKEMODULE ++ [nl] ++ lit "p" ++ [nl] ++ END_MAKEMODULE ++ [nl]
          ++ BEGIN_MAKEMODULE ++ [nl] ++ lit "q" ++ [nl] ++ END_MAKEMODULE ++ [nl])
     = Some
         (BEGIN_MAKEMODULE ++ [nl] ++ lit "new" ++ [nl] ++ END_MAKEMODULE ++ [nl]
            ++ BEGIN_MAKEMODULE ++ [nl] ++ lit "new" ++ [nl] ++ END_MAKEMODULE ++ [nl]).
Proof. split; vm_compute; reflexivity. Qed.

(** C5, amended.  [replace_lines] does not check the markers.  On a host
    file made of lines without begin marker followed by any number of
    regions (none, one, several), each a begin marker, lines without end
    marker, an end marker and lines without begin marker, it returns and
    rewrites the file with the content of every region replaced by the new
    lines; a file without begin marker is rewritten with its own text. *)
Theorem replace_lines_any_number_of_regions
    (L pre : list str) (regions : list region) (content : str) :
  readlines content = pre ++ flat_map region_lines regions ->
  Forall not_begin pre -> Forall region_ok regions ->
  replace_lines_returns L content
    (concat (pre ++ flat_map (region_with L) regions)).
Proof.
  intros R P F. apply returns_spliced. eexists. split; [|reflexivity].
  rewrite R. apply spliced_app; [exact P|]. now apply spliced_regions.
Qed.

Lemma replace_lines_any_number_of_regions_witness :
  let L := [lit "new" ++ [nl]] in
  replace_lines_returns L (lit "x" ++ [nl] ++ lit "y" ++ [nl])
    (lit "x" ++ [nl] ++ lit "y" ++ [nl])
  /\ replace_lines_returns L
       (BEGIN_MAKEMODULE ++ [nl] ++ lit "p" ++ [nl] ++ END_MAKEMODULE ++ [nl]
          ++ BEGIN_MAKEMODULE ++ [nl] ++ lit "q" ++ [nl] ++ END_MAKEMODULE ++ [nl])
       (BEGIN_MAKEMODULE ++ [nl] ++ lit "new" ++ [nl] ++ END_MAKEMODULE ++ [nl]
          ++ BEGIN_MAKEMODULE ++ [nl] ++ lit "new" ++ [nl] ++ END_MAKEMODULE ++ [nl]).
Proof.
  intros L. split.
  - apply (@replace_lines_any_number_of_regions L
             [lit "x" ++ [nl]; lit "y" ++ [nl]] []).
    + vm_compute. reflexivity.
    + repeat constructor.
    + constructor.
  - apply (@replace_lines_any_number_of_regions L []
             [(BEGIN_MAKEMODULE ++ [nl], [lit "p" ++ [nl]], END_MAKEMODULE ++ [nl], []);
              (BEGIN_MAKEMODULE ++ [nl], [lit "q" ++ [nl]], END_MAKEMODULE ++ [nl], [])]).
    + vm_compute. reflexivity.
    + constructor.
    + repeat constructor.
Defined.




(** The lines [main] splices into Makefile.am can be spliced again. *)
Lemma makefile_lines_insertable : insertable makefile_lines = true.
Proof. vm_compute. reflexivity. Qed.

Lemma makefile_lines_reinsertable : reinsertable makefile_lines = true.
Proof. vm_compute. reflexivity. Qed.

Lemma readlines_line (body t : str) :
  ~ In nl body ->
  readlines ((body ++ [nl]) ++ t) = (body ++ [nl]) :: readlines t.
Proof.
  induction body as [|c body IH]; intros N.
  - reflexivity.
  - cbn [app readlines]. destruct (N.eqb c nl) eqn:E.
    + apply N.eqb_eq in E. subst. exfalso. apply N. now left.
    + rewrite IH; [reflexivity|]. intros H. apply N. now right.
Qed.

Lemma ends_nl_app (a b : str) :
  b <> [] -> ends_nl (a ++ b) = ends_nl b.
Proof.
  intros N. unfold ends_nl. rewrite rev_app_distr.
  destruct (rev b) as [|c r] eqn:R; [|reflexivity].
  apply (f_equal (@rev char)) in R. rewrite rev_involutive in R.
  contradiction.
Qed.

Lemma drop_while_last (p : char -> bool) (l : str) (c : char) :
  p c = false -> exists r, drop_while p (l ++ [c]) = r ++ [c].
Proof.
  intros H. induction l as [|x l IH]; simpl.
  - rewrite H. now exists [].
  - destruct (p x); [exact IH|]. now exists (x :: l).
Qed.

(** [rstrip] keeps a first character that is not white space. *)
Lemma rstrip_cons (c : char) (s : str) :
  py_isspace c = false -> exists r, rstrip (c :: s) = c :: r.
Proof.
  intros H. unfold rstrip. cbn [rev].
  destruct (@drop_while_last py_isspace (rev s) c H) as [r ->].
  exists (rev r). now rewrite rev_app_distr.
Qed.

(** Lines that end in their only line feed and start with a letter. *)
Lemma letter_lines_insertable (ls : list str) :
  Forall (fun l => exists body,
            l = (65%N :: body) ++ [nl] /\ ~ In nl body) ls ->
  readlines (concat ls) = ls /\ insertable ls = true.
Proof.
  intros F.
  assert (R : readlines (concat ls) = ls).
  { induction F as [|l ls (body & -> & N) F IH]; [reflexivity|].
    cbn [concat]. rewrite readlines_line, IH; [reflexivity|].
    intros [H|H]; [discriminate H|contradiction]. }
  split; [exact R|]. unfold insertable. rewrite R.
  apply andb_true_iff. split.
  - clear R. induction F as [|l ls (body & -> & N) F IH]; [reflexivity|].
    cbn [concat]. destruct ls as [|l2 ls'].
    + cbn [concat]. rewrite app_nil_r. apply ends_nl_app. discriminate.
    + rewrite ends_nl_app; [exact IH|].
      inversion F as [|? ? (b2 & -> & _) _]; subst. discriminate.
  - apply forallb_forall. intros l Hl.
    rewrite Forall_forall in F. destruct (F l Hl) as (body & -> & _).
    destruct (@rstrip_cons 65%N (body ++ [nl]) eq_refl) as [r E].
    unfold is_end.
    change ((65%N :: body) ++ [nl]) with (65%N :: body ++ [nl]).
    match goal with
    | |- negb (str_eqb ?x _) = true =>
        replace x with (65%N :: r) by (symmetry; exact E)
    end.
    reflexivity.
Qed.

Lemma join_no_nl (a b : str) : ~ In nl a -> ~ In nl b -> ~ In nl (join a b).
Proof.
  intros Na Nb. unfold join. destruct (startswith [sep] b); [exact Nb|].
  destruct a as [|c a]; [exact Nb|].
  destruct (endswith [sep] (c :: a)); rewrite ?in_app_iff; cbn [In];
    intros H; repeat destruct H as [H|H]; try contradiction; try discriminate;
    try (apply Na; assumption).
  - apply Na. now left.
  - apply Na. now right.
  - apply Na. now left.
  - apply Na. now right.
Qed.

Lemma lit_no_nl (s : String.string) :
  existsb (N.eqb nl) (lit s) = false -> ~ In nl (lit s).
Proof. apply existsb_eqb_In. Qed.

(** The lines [main] splices into configure.ac can be spliced again, for
    group names without line feed. *)
Lemma configure_lines_insertable (names : list str) :
  Forall (fun name => ~ In nl name) names ->
  insertable (configure_lines names) = true.
Proof.
  intros F. apply letter_lines_insertable. unfold configure_lines.
  apply Forall_map. eapply Forall_impl; [|exact F]. intros name N. cbn beta zeta.
  set (runtest := join_all _ _).
  assert (Nr : ~ In nl runtest).
  { unfold runtest, join_all. cbn [fold_left].
    apply join_no_nl.
    - apply join_no_nl; [|exact N].
      apply join_no_nl; apply lit_no_nl; reflexivity.
    - rewrite in_app_iff. intros [H|H]; [|contradiction].
      revert H. apply lit_no_nl. reflexivity. }
  exists (lit "C_CONFIG_FILES([" ++ runtest ++ lit "], [chmod +x " ++ runtest
            ++ lit "])").
  split.
  - change (lit "AC_CONFIG_FILES([") with (65%N :: lit "C_CONFIG_FILES([").
    cbn [app]. f_equal. now rewrite <- !app_assoc.
  - rewrite !in_app_iff. intros [H|[H|[H|[H|H]]]]; try contradiction;
      revert H; apply lit_no_nl; reflexivity.
Qed.

(** ** The fragment writers *)

Lemma write_files_loop_closed (files : list str) :
  forall f index len,
    index + length files = len ->
    write_files_loop f files index len = f ++ value_lines files.
Proof.
  induction files as [|file rest IH]; intros f index len H.
  - simpl. now rewrite app_nil_r.
  - cbn [write_files_loop]. unfold write at 1 2 3.
    destruct rest as [|r rest'].
    + simpl in H. replace (index + 1) with len by lia.
      rewrite Nat.eqb_refl. cbn [write_files_loop value_lines].
      now rewrite <- !app_assoc.
    + assert (N : Nat.eqb (index + 1) len = false).
      { apply Nat.eqb_neq. simpl in H. lia. }
      rewrite N. rewrite IH by (simpl in *; lia).
      cbn [value_lines]. now rewrite <- !app_assoc.
Qed.

Lemma write_files_closed (f : str) (files : list str) :
  write_files f files = f ++ value_lines files.
Proof. unfold write_files. now apply write_files_loop_closed. Qed.

(** C7.  With an empty list of values the three assignment writers write
    nothing.  With values [v :: vs] they write the header line (the name,
    the operator, a backslash) and then the values in the order of the list,
    one per line after two spaces, every line but the last ending in a
    backslash and the last followed by an empty line. *)
Theorem assignment_writers_text (f name option var v : str) (vs : list str) :
  write_option f name option [] = f
  /\ append_option f name option [] = f
  /\ append f var [] = f
  /\ write_files f (v :: vs) = f ++ value_lines (v :: vs)
  /\ write_option f name option (v :: vs)
     = f ++ (name ++ lit "_" ++ option ++ lit " = " ++ [bslash; nl])
         ++ value_lines (v :: vs)
  /\ append_option f name option (v :: vs)
     = f ++ (name ++ lit "_" ++ option ++ lit " += " ++ [bslash; nl])
         ++ value_lines (v :: vs)
  /\ append f var (v :: vs)
     = f ++ (var ++ lit " += " ++ [bslash; nl]) ++ value_lines (v :: vs).
Proof.
  repeat split; try reflexivity.
  - apply write_files_closed.
  - unfold write_option. cbn [length]. rewrite write_files_closed.
    unfold write. now rewrite <- app_assoc.
  - unfold append_option. cbn [length]. rewrite write_files_closed.
    unfold write. now rewrite <- app_assoc.
  - unfold append. cbn [length]. rewrite write_files_closed.
    unfold write. now rewrite <- app_assoc.
Qed.

(** The values come out in the order of the list: the lines of a list in
    two parts are the lines of the first part, all continued, and then the
    lines of the second part. *)
Lemma value_lines_app (vs ws : list str) :
  ws <> [] ->
  value_lines (vs ++ ws)
  = concat (List.map (fun v => lit "  " ++ v ++ [bslash; nl]) vs)
      ++ value_lines ws.
Proof.
  intros N. induction vs as [|v vs IH]; [reflexivity|].
  cbn [app List.map concat]. rewrite <- !app_assoc. rewrite <- IH.
  destruct (vs ++ ws) as [|x xs] eqn:E.
  - apply app_eq_nil in E as [_ E]. contradiction.
  - reflexivity.
Qed.

Example write_option_sample :
  write_option [] (lit "ccasm") (lit "SOURCES") [lit "a.cpp"; lit "b.cpp"]
  = lit "ccasm_SOURCES = " ++ [bslash; nl]
      ++ lit "  a.cpp" ++ [bslash; nl]
      ++ lit "  b.cpp" ++ [nl; nl].
Proof. vm_compute. reflexivity. Qed.

(** ** The run wrapper *)

(** C9, as the claim has it, fails: for the group [sample] no line of the
    script exports GROUP (the only line with [export] is the one of PATH),
    the name [casm_unit_sample] does not occur in the script, and the
    script has a seventh line, the [mkdir]. *)
Lemma run_test_in_counterexample :
  let body := snd (run_test_in (lit "sample")) in
  exports (lit "GROUP") body = false
  /\ exports (lit "PATH") body = true
  /\ contains (lit "casm_unit_sample") body = false
  /\ nth 4 (readlines body) []
     = lit "mkdir -p @abs_top_srcdir@/tests/unit/test_projects" ++ [nl]
  /\ length (readlines body) = 7.
Proof. repeat split; vm_compute; reflexivity. Qed.

(** C9, amended.  For every group name the script is: the shebang line,
    the plain shell assignment [GROUP=<group>] (not exported), the export
    of PATH with the build directory in front, the change to the source
    directory, the [mkdir -p] of the test projects directory, the default
    of TEST_FLAGS, and the invocation line, which names the program as
    [casm_unit_$GROUP] and passes the flags. *)
Theorem run_test_in_body (group : str) :
  snd (run_test_in group)
  = concat
      [lit "#!/bin/bash" ++ [nl];
       lit "GROUP=" ++ group ++ [nl];
       lit "export PATH=@abs_top_builddir@:$PATH" ++ [nl];
       lit "cd @abs_top_srcdir@" ++ [nl];
       lit "mkdir -p @abs_top_srcdir@/tests/unit/test_projects" ++ [nl];
       lit ": ${TEST_FLAGS:=" ++ [dquote]
         ++ lit "--log_level=test_suite --catch_system_errors=no"
         ++ [dquote] ++ lit "}" ++ [nl];
       lit "@abs_top_builddir@/casm_unit_$GROUP ${TEST_FLAGS}" ++ [nl]].
Proof.
  unfold run_test_in, write. cbn [snd concat].
  rewrite app_nil_r. cbn [app]. now rewrite <- !app_assoc.
Qed.

(** ** split and join *)

Lemma split_nonempty (c : char) (s : str) : split c s <> [].
Proof.
  destruct s as [|x s]; simpl; [discriminate|].
  destruct (N.eqb x c); [discriminate|]. destruct (split c s); discriminate.
Qed.

Lemma join_with_cons (c : str) (p : str) (ps : list str) :
  ps <> [] -> join_with c (p :: ps) = p ++ c ++ join_with c ps.
Proof. destruct ps; [congruence|reflexivity]. Qed.

Lemma join_with_cons_char (c : str) (x : char) (w : str) (ws : list str) :
  join_with c ((x :: w) :: ws) = x :: join_with c (w :: ws).
Proof. destruct ws; reflexivity. Qed.

Lemma join_with_split (c : char) (s : str) : join_with [c] (split c s) = s.
Proof.
  induction s as [|x s IH]; [reflexivity|]. simpl.
  destruct (N.eqb x c) eqn:E.
  - apply N.eqb_eq in E. subst x.
    rewrite join_with_cons by apply split_nonempty. simpl. now rewrite IH.
  - destruct (split c s) as [|w ws] eqn:S.
    + now apply split_nonempty in S.
    + rewrite join_with_cons_char. now rewrite IH.
Qed.

Lemma split_without (c : char) (p : str) : ~ In c p -> split c p = [p].
Proof.
  induction p as [|x p IH]; [reflexivity|]. intros N. simpl.
  destruct (N.eqb x c) eqn:E.
  - apply N.eqb_eq in E. subst. exfalso. apply N. now left.
  - rewrite IH; [reflexivity|]. intros H. apply N. now right.
Qed.

Lemma split_app_sep (c : char) (p t : str) :
  ~ In c p -> split c (p ++ c :: t) = p :: split c t.
Proof.
  induction p as [|x p IH]; intros N.
  - simpl. now rewrite N.eqb_refl.
  - simpl. destruct (N.eqb x c) eqn:E.
    + apply N.eqb_eq in E. subst. exfalso. apply N. now left.
    + rewrite IH; [reflexivity|]. intros H. apply N. now right.
Qed.

Lemma split_join_with (c : char) (parts : list str) :
  parts <> [] -> Forall (fun p => ~ In c p) parts ->
  split c (join_with [c] parts) = parts.
Proof.
  intros N F. revert N. induction F as [|p ps Hp F IH]; intros N; [now contradiction N|].
  destruct ps as [|q ps'].
  - simpl. now apply split_without.
  - rewrite join_with_cons by discriminate. cbn [app].
    rewrite split_app_sep by exact Hp. rewrite IH by discriminate.
    reflexivity.
Qed.

Lemma split_inj (c : char) (a b : str) : split c a = split c b -> a = b.
Proof.
  intros H. rewrite <- (join_with_split c a), <- (join_with_split c b).
  now rewrite H.
Qed.

(** ** The names of the install directories *)

(** C6, as the claim has it, fails: below [include/casm] the directories
    [a_b] and [a/b] are two directories of one walk and get one name. *)
Lemma subpathname_collision_counterexample :
  let fs :=
    Dir [(lit "include",
          Dir [(lit "casm",
                Dir [(lit "a_b", Dir [(lit "x.hh", File)]);
                     (lit "a", Dir [(lit "b", Dir [(lit "y.hh", File)])])])])] in
  let d1 := lit "include/casm/a_b" in
  let d2 := lit "include/casm/a/b" in
  mem d1 (walked fs (lit "include/casm")) = true
  /\ mem d2 (walked fs (lit "include/casm")) = true
  /\ d1 <> d2
  /\ subpathname d1 = lit "casm_a_b_include"
  /\ subpathname d2 = lit "casm_a_b_include".
Proof.
  repeat split; try (vm_compute; reflexivity). vm_compute. discriminate.
Qed.

Lemma forallb_no_underscore (parts : list str) :
  forallb no_underscore parts = true ->
  Forall (fun p => ~ In underscore p) parts.
Proof.
  intros H. apply Forall_forall. intros p Hp.
  rewrite forallb_forall in H. specialize (H p Hp).
  unfold no_underscore in H. apply negb_true_iff in H.
  now apply existsb_eqb_In.
Qed.

(** C6, amended.  Two distinct directories with the same first path
    component (as the directories of one include root have) get distinct
    names, provided no path component after the first holds an underscore:
    the name is made of all the components after the first, joined by
    underscores. *)
Theorem subpathname_injective (d1 d2 : str) :
  hd [] (split sep d1) = hd [] (split sep d2) ->
  forallb no_underscore (subpath_parts d1) = true ->
  forallb no_underscore (subpath_parts d2) = true ->
  d1 <> d2 ->
  subpathname d1 <> subpathname d2.
Proof.
  intros Hhd U1 U2 Nd E. apply Nd. apply (split_inj sep).
  assert (P : subpath_parts d1 = subpath_parts d2).
  { unfold subpathname in E.
    apply (f_equal (split underscore)) in E.
    assert (I : ~ In underscore (lit "include")).
    { apply existsb_eqb_In. reflexivity. }
    rewrite !split_join_with in E.
    - now apply app_inj_tail in E as [E _].
    - now destruct (subpath_parts d2).
    - apply Forall_app. split; [now apply forallb_no_underscore|].
      constructor; [exact I|constructor].
    - now destruct (subpath_parts d1).
    - apply Forall_app. split; [now apply forallb_no_underscore|].
      constructor; [exact I|constructor]. }
  unfold subpath_parts in P.
  pose proof (split_nonempty sep d1) as N1.
  pose proof (split_nonempty sep d2) as N2.
  destruct (split sep d1) as [|h1 t1]; [congruence|].
  destruct (split sep d2) as [|h2 t2]; [congruence|].
  simpl in *. congruence.
Qed.

Lemma subpathname_injective_witness :
  subpathname (lit "include/casm/app") <> subpathname (lit "include/casm/clex").
Proof.
  apply subpathname_injective.
  - vm_compute. reflexivity.
  - vm_compute. reflexivity.
  - vm_compute. reflexivity.
  - vm_compute. discriminate.
Defined.

Example subpathname_sample :
  subpathname (lit "include/casm/app") = lit "casm_app_include".
Proof. vm_compute. reflexivity. Qed.

(** ** Regular expressions: the matcher and the strings a pattern denotes *)

Import Re.

Lemma matches_nil_nullable (r : regex) : nullable r = true <-> matches r [].
Proof.
  induction r as [| |p|r1 IH1 r2 IH2|r1 IH1 r2 IH2|r IH]; simpl.
  - split; [discriminate|inversion 1].
  - split; [constructor|reflexivity].
  - split; [discriminate|inversion 1].
  - rewrite andb_true_iff, IH1, IH2. split.
    + intros [H1 H2]. exact (MCat H1 H2).
    + inversion 1 as [| |? ? s1 s2 H1 H2 E1 E2| | | |]; subst.
      apply app_eq_nil in E2 as [-> ->]. now split.
  - rewrite orb_true_iff, IH1, IH2. split.
    + intros [H|H]; [now apply MAltL|now apply MAltR].
    + inversion 1; subst; [now left|now right].
  - split; [constructor|reflexivity].
Qed.

Lemma matches_star_cons (r : regex) (c : char) (s : str) :
  matches (Star r) (c :: s) ->
  exists s1 s2, s = s1 ++ s2 /\ matches r (c :: s1) /\ matches (Star r) s2.
Proof.
  intros H. remember (Star r) as r' eqn:Er. remember (c :: s) as t eqn:Et.
  revert c s Et.
  induction H as [| | | | | |r0 s1 s2 H1 _ H2 IH2]; intros c' s' Et;
    try discriminate.
  injection Er as ->. destruct s1 as [|x s1'].
  - simpl in Et. exact (IH2 eq_refl c' s' Et).
  - simpl in Et. injection Et as -> <-. now exists s1', s2.
Qed.

Lemma matches_deriv (c : char) (r : regex) :
  forall s, matches (deriv c r) s <-> matches r (c :: s).
Proof.
  induction r as [| |p|r1 IH1 r2 IH2|r1 IH1 r2 IH2|r IH]; intros s; simpl.
  - split; inversion 1.
  - split; inversion 1.
  - destruct (p c) eqn:E; split.
    + inversion 1; subst. now constructor.
    + inversion 1; subst. constructor.
    + inversion 1.
    + inversion 1; subst. congruence.
  - assert (K : matches (Cat (deriv c r1) r2) s ->
                matches (Cat r1 r2) (c :: s)).
    { inversion 1 as [| |? ? a b Ha Hb| | | |]; subst.
      apply IH1 in Ha. exact (MCat Ha Hb). }
    destruct (nullable r1) eqn:N; split.
    + inversion 1 as [| | |? ? ? Hl|? ? ? Hr| |]; subst.
      * now apply K.
      * apply IH2 in Hr. apply matches_nil_nullable in N.
        exact (MCat N Hr).
    + inversion 1 as [| |? ? a b Ha Hb E1 E2| | | |]; subst.
      destruct a as [|x a'].
      * simpl in E2. subst b. apply MAltR. now apply IH2.
      * simpl in E2. injection E2 as -> <-. apply MAltL.
        apply MCat; [now apply IH1|exact Hb].
    + exact K.
    + inversion 1 as [| |? ? a b Ha Hb E1 E2| | | |]; subst.
      destruct a as [|x a'].
      * apply matches_nil_nullable in Ha. congruence.
      * simpl in E2. injection E2 as -> <-.
        apply MCat; [now apply IH1|exact Hb].
  - split.
    + inversion 1; subst; [apply MAltL; now apply IH1|apply MAltR; now apply IH2].
    + inversion 1; subst; [apply MAltL; now apply IH1|apply MAltR; now apply IH2].
  - split.
    + inversion 1 as [| |? ? a b Ha Hb| | | |]; subst.
      apply IH in Ha. exact (MStarApp Ha Hb).
    + intros H. apply matches_star_cons in H as (s1 & s2 & -> & H1 & H2).
      apply MCat; [now apply IH|exact H2].
Qed.

(** [re_match] decides whether the pattern denotes a prefix of the string. *)
Lemma re_match_correct (s : str) :
  forall r, re_match r s = true <-> matches_at_0 r s.
Proof.
  unfold matches_at_0.
  induction s as [|c s IH]; intros r; simpl; rewrite orb_true_iff.
  - split.
    + intros [H|H]; [|discriminate]. exists [], [].
      split; [reflexivity|now apply matches_nil_nullable].
    + intros (p & t & E & H). left. symmetry in E.
      apply app_eq_nil in E as [-> _]. now apply matches_nil_nullable.
  - split.
    + intros [H|H].
      * exists [], (c :: s). split; [reflexivity|now apply matches_nil_nullable].
      * apply IH in H as (p & t & -> & H). exists (c :: p), t.
        split; [reflexivity|now apply matches_deriv].
    + intros (p & t & E & H). destruct p as [|x p'].
      * left. now apply matches_nil_nullable.
      * right. simpl in E. injection E as <- ->. apply IH.
        exists p', t. split; [reflexivity|now apply matches_deriv].
Qed.

(** [re_fullmatch] decides whether the pattern denotes the string. *)
Lemma re_fullmatch_correct (s : str) :
  forall r, re_fullmatch r s = true <-> matches r s.
Proof.
  induction s as [|c s IH]; intros r; simpl.
  - apply matches_nil_nullable.
  - rewrite IH. apply matches_deriv.
Qed.

Lemma find_files_accepted (fs : node) (loc : str) (include exclude : regex)
    (res : list str) (path : str) :
  find_files fs loc include exclude = Ok res -> In path res ->
  exists root f, path = join root f /\ accepts include exclude f = true.
Proof.
  unfold find_files. intros [= <-] H.
  apply in_flat_map in H as ([[root dirs] files] & _ & H).
  apply in_map_iff in H as (f & <- & H).
  apply filter_In in H as [_ H]. now exists root, f.
Qed.

(** ** The test of find_files on a file name *)

(** C3.  The test accepts a file name exactly when the include pattern
    matches a prefix of the name and the exclude pattern matches no prefix
    of it.  So a name the exclude pattern matches is rejected whatever the
    include pattern is; among them are, for the default exclude pattern,
    [foo.o], [bar.Plo] and [.gitignore], and also [notes.old.txt], where
    the pattern matches a prefix and not the whole name.  Every path
    [find_files] returns is [join(root, f)] for a name [f] that the exclude
    pattern does not match at position 0. *)
Theorem accepts_iff_include_and_not_exclude :
  (forall include exclude f,
     accepts include exclude f = true
     <-> matches_at_0 include f /\ ~ matches_at_0 exclude f)
  /\ (forall include exclude f,
        matches_at_0 exclude f -> accepts include exclude f = false)
  /\ (forall include,
        accepts include default_exclude (lit "foo.o") = false
        /\ accepts include default_exclude (lit "bar.Plo") = false
        /\ accepts include default_exclude (lit ".gitignore") = false
        /\ accepts include default_exclude (lit "notes.old.txt") = false)
  /\ ~ matches default_exclude (lit "notes.old.txt")
  /\ (forall fs loc include exclude res path,
        find_files fs loc include exclude = Ok res -> In path res ->
        exists root f,
          path = join root f
          /\ matches_at_0 include f /\ ~ matches_at_0 exclude f).
Proof.
  assert (A : forall include exclude f,
             accepts include exclude f = true
             <-> matches_at_0 include f /\ ~ matches_at_0 exclude f).
  { intros include exclude f. unfold accepts.
    rewrite andb_true_iff, negb_true_iff, re_match_correct.
    rewrite <- (re_match_correct f exclude).
    destruct (re_match exclude f); intuition congruence. }
  assert (B : forall include f,
             re_match default_exclude f = true ->
             accepts include default_exclude f = false).
  { intros include f H. unfold accepts. rewrite H. apply andb_false_r. }
  split; [exact A|]. split; [|split; [|split]].
  - intros include exclude f H. apply re_match_correct in H.
    unfold accepts. rewrite H. apply andb_false_r.
  - intros include. repeat split; apply B; vm_compute; reflexivity.
  - intros H. apply re_fullmatch_correct in H. vm_compute in H. discriminate.
  - intros fs loc include exclude res path H I.
    destruct (find_files_accepted _ H I) as (root & f & E & Acc).
    exists root, f. split; [exact E|]. now apply A.
Qed.

Example accepts_header :
  accepts default_include default_exclude (lit "Foo.hh") = true.
Proof. vm_compute. reflexivity. Qed.

(** ** Paths and the file tree *)

Lemma split_app (c : char) (a b : str) :
  split c (a ++ c :: b) = split c a ++ split c b.
Proof.
  induction a as [|x a IH]; simpl.
  - now rewrite N.eqb_refl.
  - rewrite IH. destruct (N.eqb x c); [reflexivity|].
    destruct (split c a) as [|w ws] eqn:E; [|reflexivity].
    now apply split_nonempty in E.
Qed.

(** A trailing slash asks for a directory. *)
Lemma resolve_trailing_slash (segs : list str) :
  forall above cur,
    resolve above cur (segs ++ [[]])
    = match resolve above cur segs with
      | Ok File => Raise NotADirectoryError
      | r => r
      end.
Proof.
  induction segs as [|s segs IH]; intros above cur.
  - simpl. now destruct cur.
  - cbn [app resolve]. destruct cur as [|entries]; [reflexivity|].
    destruct (str_eqb s [] || str_eqb s (lit ".")); [apply IH|].
    destruct (str_eqb s (lit "..")).
    + destruct above; apply IH.
    + destruct (assoc s entries); [apply IH|reflexivity].
Qed.

Lemma endswith_sep_inv (loc : str) :
  endswith [sep] loc = true -> exists loc', loc = loc' ++ [sep].
Proof.
  unfold endswith. intros H. destruct (rev loc) as [|c r] eqn:E.
  - discriminate.
  - cbn [startswith] in H. apply andb_true_iff in H as [H _].
    apply N.eqb_eq in H. subst c.
    exists (rev r). rewrite <- (rev_involutive loc), E. reflexivity.
Qed.

(** Opening a file for writing in a directory that does not resolve raises
    what resolving the directory raises. *)
Lemma open_w_in_missing_directory (fs : node) (loc name : str) (e : exn) :
  loc <> [] -> startswith [sep] name = false -> ~ In sep name ->
  lookup fs loc = Raise e ->
  open_w fs (join loc name) = Raise e.
Proof.
  intros Nl Sn In_name Hl.
  assert (J : join loc name
              = if endswith [sep] loc then loc ++ name else loc ++ sep :: name).
  { unfold join. rewrite Sn. destruct loc; [congruence|reflexivity]. }
  assert (Hr : resolve [] fs (split sep loc) = Raise e).
  { destruct loc; [congruence|exact Hl]. }
  assert (O : forall p, p <> [] ->
            open_w fs p
            = bind (resolve [] fs (removelast (split sep p)))
                (fun parent =>
                   match parent with
                   | File => Raise NotADirectoryError
                   | Dir _ => match lookup fs p with
                              | Ok (Dir _) => Raise IsADirectoryError
                              | _ => Ok tt
                              end
                   end)).
  { intros p Np. destruct p; [congruence|reflexivity]. }
  rewrite J. destruct (endswith [sep] loc) eqn:Es.
  - apply endswith_sep_inv in Es as [loc' Eloc'].
    rewrite O by (destruct loc; [congruence|discriminate]).
    rewrite Eloc' in Hr |- *. rewrite <- app_assoc. cbn [app].
    rewrite split_app, (@split_without sep name In_name), removelast_last.
    replace (loc' ++ [sep]) with (loc' ++ sep :: []) in Hr by reflexivity.
    rewrite split_app in Hr. cbn [split] in Hr.
    rewrite resolve_trailing_slash in Hr.
    destruct (resolve [] fs (split sep loc')) as [[|entries]|e'];
      simpl; congruence.
  - rewrite O by (destruct loc; [congruence|discriminate]).
    rewrite split_app, (@split_without sep name In_name), removelast_last, Hr.
    reflexivity.
Qed.

(** ** find_files below a root that does not exist *)

(** C4, as the claim has it, fails: below a root that does not exist
    [find_files] returns the empty list. *)
Lemma find_files_missing_root_counterexample :
  lookup (Dir []) (lit "include/casm") = Raise FileNotFoundError
  /\ find_files (Dir []) (lit "include/casm") default_include default_exclude
     = Ok [].
Proof. split; reflexivity. Qed.

(** C4, amended.  For a root path that does not resolve, [find_files]
    raises nothing and returns the empty list, since [os.walk] ignores the
    error of listing the root.  The fragment of such a root is not written
    all the same: [main] opens [Makemodule.am] in the root for writing
    before it scans the root, and that raises the error of the root. *)
Theorem find_files_missing_root
    (fs : node) (loc : str) (include exclude : regex) (e : exn) :
  lookup fs loc = Raise e ->
  os_walk fs loc = []
  /\ find_files fs loc include exclude = Ok []
  /\ (loc <> [] -> main_include fs loc = Raise e).
Proof.
  intros H.
  assert (W : os_walk fs loc = []).
  { unfold os_walk, scandir. now rewrite H. }
  repeat split.
  - exact W.
  - unfold find_files. now rewrite W.
  - intros Nl. unfold main_include.
    rewrite (@open_w_in_missing_directory fs loc (lit "Makemodule.am") e);
      try assumption; try reflexivity.
    apply existsb_eqb_In. reflexivity.
Qed.

Lemma find_files_missing_root_witness :
  find_files (Dir [(lit "src", Dir [])]) (lit "include/casm")
    default_include default_exclude = Ok []
  /\ main_include (Dir [(lit "src", Dir [])]) (lit "include/casm")
     = Raise FileNotFoundError.
Proof.
  destruct (@find_files_missing_root (Dir [(lit "src", Dir [])])
              (lit "include/casm") default_include default_exclude
              FileNotFoundError eq_refl) as (_ & F & M).
  split; [exact F|]. apply M. discriminate.
Defined.

(** ** glob for the test sources *)

Lemma startswith_iff (p s : str) :
  startswith p s = true <-> exists t, s = p ++ t.
Proof.
  revert s. induction p as [|x p IH]; intros s.
  - simpl. split; [intros _; now exists s|reflexivity].
  - destruct s as [|y s]; simpl.
    + split; [discriminate|intros [t E]; discriminate].
    + rewrite andb_true_iff, N.eqb_eq, IH. split.
      * intros [-> [t ->]]. now exists t.
      * intros [t [= -> ->]]. split; [reflexivity|now exists t].
Qed.

Lemma endswith_iff (p s : str) :
  endswith p s = true <-> exists q, s = q ++ p.
Proof.
  unfold endswith. rewrite startswith_iff. split.
  - intros [t E]. exists (rev t).
    rewrite <- (rev_involutive s), E, rev_app_distr, rev_involutive.
    reflexivity.
  - intros [q ->]. exists (rev q). now rewrite rev_app_distr.
Qed.

Lemma matches_star_any (s : str) : matches (Star Any) s.
Proof.
  induction s as [|c s IH]; [constructor|].
  change (c :: s) with ([c] ++ s). apply MStarApp; [|exact IH].
  now constructor.
Qed.

Lemma matches_plain (p s : str) : matches (plain p) s <-> s = p.
Proof.
  revert s. induction p as [|c p IH]; intros s; simpl.
  - split; [inversion 1; reflexivity|intros ->; constructor].
  - split.
    + inversion 1 as [| |? ? a b Ha Hb| | | |]; subst.
      inversion Ha as [|? x Hx| | | | |]; subst.
      apply N.eqb_eq in Hx. subst x. apply IH in Hb. now subst.
    + intros ->. change (c :: p) with ([c] ++ p). apply MCat.
      * constructor. apply N.eqb_refl.
      * now apply IH.
Qed.

(** ['*_test.cpp'] matches the names that end in [_test.cpp]. *)
Lemma fnmatch_test_cpp (name : str) :
  Glob.fnmatch name (lit "*_test.cpp") = endswith (lit "_test.cpp") name.
Proof.
  unfold Glob.fnmatch.
  change (Glob.translate (lit "*_test.cpp"))
    with (Cat (Star Any) (plain (lit "_test.cpp"))).
  apply eq_true_iff_eq. rewrite re_fullmatch_correct, endswith_iff. split.
  - inversion 1 as [| |? ? a b Ha Hb| | | |]; subst.
    apply (proj1 (matches_plain (lit "_test.cpp") b)) in Hb. subst b.
    now exists a.
  - intros [q ->]. apply MCat; [apply matches_star_any|now apply matches_plain].
Qed.

Lemma has_magic_app (a b : str) :
  Glob.has_magic (a ++ b) = Glob.has_magic a || Glob.has_magic b.
Proof. apply existsb_app. Qed.

Lemma rsplit_sep_app (b r : str) :
  ~ In sep b -> rsplit_sep (b ++ sep :: r) = (b, sep :: r).
Proof.
  induction b as [|x b IH]; intros N.
  - reflexivity.
  - cbn [app rsplit_sep]. destruct (N.eqb x sep) eqn:E.
    + apply N.eqb_eq in E. subst. exfalso. apply N. now left.
    + rewrite IH; [reflexivity|]. intros H. apply N. now right.
Qed.

Lemma endswith_sep_false (d : str) :
  d <> [] -> endswith [sep] d = false ->
  exists c r, rev d = c :: r /\ N.eqb sep c = false.
Proof.
  intros N E. unfold endswith in E. destruct (rev d) as [|c r] eqn:R.
  - apply (f_equal (@rev char)) in R. rewrite rev_involutive in R.
    contradiction.
  - exists c, r. split; [reflexivity|]. cbn [rev startswith app] in E.
    now rewrite andb_true_r in E.
Qed.

Lemma os_path_split_join (d b : str) :
  d <> [] -> endswith [sep] d = false -> ~ In sep b ->
  os_path_split (d ++ sep :: b) = (d, b).
Proof.
  intros N E Nb. unfold os_path_split.
  rewrite rev_app_distr. cbn [rev]. rewrite <- app_assoc. cbn [app].
  rewrite rsplit_sep_app by (rewrite <- in_rev; exact Nb).
  destruct (endswith_sep_false N E) as (c & r & R & C).
  cbn [drop_while]. rewrite N.eqb_refl. rewrite R. cbn [drop_while].
  rewrite C. rewrite <- R. now rewrite !rev_involutive.
Qed.

Lemma join_plain (d b : str) :
  d <> [] -> endswith [sep] d = false -> startswith [sep] b = false ->
  join d b = d ++ sep :: b.
Proof.
  intros N E S. unfold join. rewrite S, E. destruct d; [congruence|reflexivity].
Qed.

Lemma filter_filter (A : Type) (f g : A -> bool) (l : list A) :
  filter f (filter g l) = filter (fun x => g x && f x) l.
Proof.
  induction l as [|x l IH]; [reflexivity|]. simpl.
  destruct (g x); simpl; [destruct (f x)|]; now rewrite IH.
Qed.

(** In a directory whose path has no special character, [glob] for
    ['*_test.cpp'] reports the test sources among the entries of the
    directory, in the order of the listing. *)
Lemma glob_test_sources (fs : node) (dir : str) (entries : list (str * node)) :
  dir <> [] -> endswith [sep] dir = false -> Glob.has_magic dir = false ->
  lookup fs dir = Ok (Dir entries) ->
  Glob.glob fs (join dir (lit "*_test.cpp"))
  = List.map (join dir) (filter is_test_source (List.map fst entries)).
Proof.
  intros N E M Hl.
  rewrite (join_plain _ N E) by reflexivity.
  assert (Mp : Glob.has_magic (dir ++ sep :: lit "*_test.cpp") = true).
  { rewrite has_magic_app, M. reflexivity. }
  assert (G1 : Glob.glob1 fs dir (lit "*_test.cpp")
               = filter is_test_source (List.map fst entries)).
  { unfold Glob.glob1, listdir, scandir. rewrite Hl. cbn [bind].
    change (Glob.is_hidden (lit "*_test.cpp")) with false. cbn iota.
    rewrite filter_filter. apply filter_ext. intros name.
    unfold is_test_source. now rewrite fnmatch_test_cpp. }
  unfold Glob.glob. cbn [Glob.iglob].
  rewrite os_path_split_join; try assumption;
    [|apply existsb_eqb_In; reflexivity].
  rewrite Mp, M, andb_false_r. cbn [negb].
  change (Glob.has_magic (lit "*_test.cpp")) with true. cbn iota.
  destruct dir as [|c dir0] eqn:Ed; [congruence|]. rewrite <- Ed in *.
  cbn [flat_map]. rewrite app_nil_r. now rewrite G1.
Qed.

Lemma no_sep_startswith (name : str) :
  existsb (N.eqb sep) name = false -> startswith [sep] name = false.
Proof.
  destruct name as [|c name]; [reflexivity|]. cbn [existsb startswith].
  intros H. apply orb_false_iff in H as [H _]. now rewrite H.
Qed.

(** The directory of a group whose name has no special character. *)
Lemma test_dir_plain (group : str) :
  entry_name group = true -> Glob.has_magic group = false ->
  join unittest_dir group <> []
  /\ endswith [sep] (join unittest_dir group) = false
  /\ Glob.has_magic (join unittest_dir group) = false.
Proof.
  intros V M. unfold entry_name in V.
  apply andb_true_iff in V as [V1 V2].
  apply negb_true_iff in V1, V2. apply str_eqb_neq in V1.
  assert (J : join unittest_dir group = unittest_dir ++ sep :: group).
  { apply join_plain; [discriminate|reflexivity|now apply no_sep_startswith]. }
  rewrite J. repeat split.
  - discriminate.
  - unfold endswith. rewrite rev_app_distr. cbn [rev]. rewrite <- app_assoc.
    destruct (rev group) as [|c r] eqn:R.
    + apply (f_equal (@rev char)) in R. rewrite rev_involutive in R.
      contradiction.
    + cbn [app rev startswith]. rewrite andb_true_r.
      assert (I : In c group).
      { apply in_rev. rewrite R. now left. }
      apply existsb_eqb_In in V2.
      apply N.eqb_neq. intros <-. contradiction.
  - rewrite has_magic_app. change (Glob.has_magic unittest_dir) with false.
    cbn [orb]. change (sep :: group) with ([sep] ++ group).
    rewrite has_magic_app, M. reflexivity.
Qed.

Lemma write_option_assignment (f name option : str) (values : list str) :
  write_option f name option values
  = f ++ assignment (name ++ lit "_" ++ option ++ lit " = " ++ [bslash; nl]) values.
Proof.
  destruct values as [|v vs]; [simpl; now rewrite app_nil_r|].
  unfold write_option. cbn [length]. rewrite write_files_closed.
  unfold write, assignment. now rewrite <- app_assoc.
Qed.

Lemma append_option_assignment (f name option : str) (values : list str) :
  append_option f name option values
  = f ++ assignment (name ++ lit "_" ++ option ++ lit " += " ++ [bslash; nl]) values.
Proof.
  destruct values as [|v vs]; [simpl; now rewrite app_nil_r|].
  unfold append_option. cbn [length]. rewrite write_files_closed.
  unfold write, assignment. now rewrite <- app_assoc.
Qed.

Lemma append_assignment (f var : str) (values : list str) :
  append f var values = f ++ assignment (var ++ lit " += " ++ [bslash; nl]) values.
Proof.
  destruct values as [|v vs]; [simpl; now rewrite app_nil_r|].
  unfold append. cbn [length]. rewrite write_files_closed.
  unfold write, assignment. now rewrite <- app_assoc.
Qed.

(** The text [testdir] writes: six assignments, the third being SOURCES. *)
Lemma testdir_text (fs : node) (f group : str) :
  testdir fs f group
  = f
    ++ assignment (lit "check" ++ lit "_" ++ lit "PROGRAMS" ++ lit " += " ++ [bslash; nl])
         [lit "casm_unit_" ++ group]
    ++ assignment ((lit "casm_unit_" ++ group) ++ lit "_" ++ lit "CXXFLAGS"
                     ++ lit " = " ++ [bslash; nl])
         [lit "$(AM_CXXFLAGS)"; lit "-I$(top_srcdir)/tests/unit/"]
    ++ assignment ((lit "casm_unit_" ++ group) ++ lit "_" ++ lit "SOURCES"
                     ++ lit " = " ++ [bslash; nl])
         (testdir_sources fs group)
    ++ assignment ((lit "casm_unit_" ++ group) ++ lit "_" ++ lit "LDADD"
                     ++ lit " = " ++ [bslash; nl])
         (lib_casm ++ boost_libs ++ boost_test_libs ++ lib_casm_testing)
    ++ assignment (lit "EXTRA_DIST" ++ lit " += " ++ [bslash; nl])
         (flat_map (fun ext => Glob.glob fs (join (join unittest_dir group) ext))
                   extradist_ext)
    ++ assignment (lit "TESTS" ++ lit " += " ++ [bslash; nl])
         [join_all (lit "tests") [lit "unit"; group; lit "run_test_" ++ group]].
Proof.
  unfold testdir.
  set (extra := flat_map _ extradist_ext).
  assert (X : forall g,
            match length extra with
            | O => g
            | S _ => append g (lit "EXTRA_DIST") extra
            end
            = g ++ assignment (lit "EXTRA_DIST" ++ lit " += " ++ [bslash; nl]) extra).
  { intros g. destruct extra as [|x xs] eqn:Ex.
    - simpl. now rewrite app_nil_r.
    - cbn [length]. apply append_assignment. }
  rewrite append_assignment, X, !write_option_assignment,
    append_option_assignment.
  now rewrite <- !app_assoc.
Qed.

(** ** Test groups *)

(** C8.  [has_tests] and [testdir] hand [join(dir, '*_test.cpp')] to [glob]
    with the name of the directory as it is, and [glob] reads a name such as
    [[x]] as a pattern.  The directory [tests/unit/[x]] that holds
    [foo_test.cpp] has no tests for [has_tests], against its docstring, and
    no group is made for it: [glob] looks into a directory named [x].  And
    when such a directory [x] with a test source exists, the empty directory
    [[x]] is taken for a group, with the test source of [x] among its
    SOURCES. *)
Lemma has_tests_bracket_directory :
  let fs1 :=
    Dir [(lit "tests",
          Dir [(lit "unit",
                Dir [(lit "[x]", Dir [(lit "foo_test.cpp", File)])])])] in
  let fs2 :=
    Dir [(lit "tests",
          Dir [(lit "unit",
                Dir [(lit "[x]", Dir []);
                     (lit "x", Dir [(lit "foo_test.cpp", File)])])])] in
  lookup fs1 (lit "tests/unit/[x]") = Ok (Dir [(lit "foo_test.cpp", File)])
  /\ is_test_source (lit "foo_test.cpp") = true
  /\ has_tests fs1 (join unittest_dir (lit "[x]")) = false
  /\ testnames fs1 = Ok []
  /\ lookup fs2 (lit "tests/unit/[x]") = Ok (Dir [])
  /\ has_tests fs2 (join unittest_dir (lit "[x]")) = true
  /\ testnames fs2 = Ok [lit "[x]"; lit "x"]
  /\ testdir_sources fs2 (lit "[x]")
     = [lit "tests/unit/unit_test.cpp"; lit "tests/unit/x/foo_test.cpp"].
Proof. repeat split; vm_compute; reflexivity. Qed.

(** X17.  Take an entry [group] of the tests root that is a
    directory and whose name has none of the characters [*], [?] and [[].
    It is detected as a test group exactly when one of its own entries has
    a name that ends in [_test.cpp] and does not start with a period.  The
    names [main] collects hold each name once, and [group] is among them
    exactly when it has such an entry.  The values of its SOURCES assignment
    are the harness file [tests/unit/unit_test.cpp] first and then the paths
    of these entries, and of no entry further down, in the order of the
    listing; with [foo_test.cpp] as the only such entry they are the
    harness file and the path of [foo_test.cpp].  [testdir] writes that
    assignment. *)
Theorem test_group_detection
    (fs : node) (names : list str) (group : str) (entries : list (str * node)) :
  listdir fs unittest_dir = Ok names -> NoDup names -> In group names ->
  entry_name group = true -> Glob.has_magic group = false ->
  lookup fs (join unittest_dir group) = Ok (Dir entries) ->
  let test_dir := join unittest_dir group in
  let found := filter is_test_source (List.map fst entries) in
  (isdir fs test_dir && has_tests fs test_dir = true
   <-> exists name, In name (List.map fst entries) /\ is_test_source name = true)
  /\ (exists tn, testnames fs = Ok tn /\ NoDup tn
                 /\ (In group tn <-> found <> []))
  /\ testdir_sources fs group
     = lit "tests/unit/unit_test.cpp" :: List.map (join test_dir) found
  /\ (forall foo, found = [foo] ->
        testdir_sources fs group
        = [lit "tests/unit/unit_test.cpp"; join test_dir foo])
  /\ (forall f, exists before after,
        testdir fs f group
        = before
          ++ (lit "casm_unit_" ++ group ++ lit "_SOURCES = " ++ [bslash; nl])
          ++ value_lines
               (lit "tests/unit/unit_test.cpp" :: List.map (join test_dir) found)
          ++ after).
Proof.
  intros Hn Nd Ig V M Hl test_dir found.
  destruct (@test_dir_plain group V M) as (D1 & D2 & D3).
  pose proof (@glob_test_sources fs _ entries D1 D2 D3 Hl) as G. fold test_dir found in G.
  assert (Hd : isdir fs test_dir = true).
  { unfold isdir, test_dir. now rewrite Hl. }
  assert (Ht : has_tests fs test_dir = true <-> found <> []).
  { unfold has_tests. rewrite G, length_map. destruct found as [|x xs].
    - simpl. split; [discriminate|congruence].
    - simpl. split; [discriminate|reflexivity]. }
  assert (Hf : found <> [] <->
               exists name, In name (List.map fst entries)
                            /\ is_test_source name = true).
  { split.
    - destruct found as [|x xs] eqn:F; [congruence|]. intros _.
      assert (I : In x found) by (rewrite F; now left).
      apply filter_In in I. now exists x.
    - intros (name & I & T) F.
      assert (I' : In name found) by (apply filter_In; now split).
      rewrite F in I'. contradiction. }
  assert (Hs : testdir_sources fs group
               = lit "tests/unit/unit_test.cpp" :: List.map (join test_dir) found).
  { unfold testdir_sources. fold test_dir. now rewrite G. }
  split; [|split; [|split; [|split]]].
  - rewrite Hd. cbn [andb]. now rewrite Ht.
  - unfold testnames. rewrite Hn. cbn [bind]. eexists. split; [reflexivity|].
    split; [now apply NoDup_filter|].
    rewrite filter_In. fold test_dir. rewrite Hd. cbn [andb]. rewrite Ht.
    tauto.
  - exact Hs.
  - intros foo F. rewrite Hs, F. reflexivity.
  - intros f. rewrite testdir_text, Hs.
    assert (Hh : (lit "casm_unit_" ++ group) ++ lit "_" ++ lit "SOURCES"
                   ++ lit " = " ++ [bslash; nl]
                 = lit "casm_unit_" ++ group ++ lit "_SOURCES = " ++ [bslash; nl]).
    { rewrite <- app_assoc. reflexivity. }
    rewrite Hh. unfold assignment at 3.
    assert (Mid : forall a b c h v r : str,
              a ++ b ++ c ++ (h ++ v) ++ r = (a ++ b ++ c) ++ h ++ v ++ r).
    { intros. now rewrite <- !app_assoc. }
    eexists. eexists. apply Mid.
Qed.

Lemma test_group_detection_witness :
  let entries :=
    [(lit "bar_test.cpp", File); (lit "d.json", File);
     (lit "deep", Dir [(lit "deep_test.cpp", File)])] in
  let fs :=
    Dir [(lit "tests",
          Dir [(lit "unit",
                Dir [(lit "sample", Dir entries); (lit "unit_test.cpp", File)])])] in
  testdir_sources fs (lit "sample")
  = [lit "tests/unit/unit_test.cpp"; lit "tests/unit/sample/bar_test.cpp"]
  /\ testnames fs = Ok [lit "sample"].
Proof.
  intros entries fs.
  destruct (@test_group_detection fs [lit "sample"; lit "unit_test.cpp"]
              (lit "sample") entries) as (_ & _ & S & _ & _).
  - vm_compute. reflexivity.
  - constructor; [|constructor; [intros []|constructor]].
    intros [H|[]]. vm_compute in H. discriminate H.
  - now left.
  - vm_compute. reflexivity.
  - vm_compute. reflexivity.
  - vm_compute. reflexivity.
  - split; [rewrite S|]; vm_compute; reflexivity.
Defined.

(** * Further properties *)

(** ** replace_lines: when it returns, how long it takes, splicing twice *)

Lemma closed_regions_skip (mid rest : list str) :
  Forall not_end mid ->
  closed_regions true (mid ++ rest) = closed_regions true rest.
Proof.
  induction 1 as [|m mid H _ IH]; [reflexivity|].
  cbn [app closed_regions]. unfold not_end in H. rewrite H. exact IH.
Qed.

Lemma spliced_closed (L ls out : list str) :
  spliced L ls out -> closed_regions false ls = true.
Proof.
  induction 1 as [|l ls out B S IH|b mid e post out B F E S IH].
  - reflexivity.
  - cbn [closed_regions]. unfold not_begin in B. now rewrite B.
  - cbn [closed_regions]. rewrite B, closed_regions_skip by exact F.
    cbn [closed_regions]. now rewrite E.
Qed.

Lemma closed_spliced (L ls : list str) :
  (closed_regions false ls = true -> exists out, spliced L ls out)
  /\ (closed_regions true ls = true ->
      exists mid e post out,
        ls = mid ++ e :: post /\ Forall not_end mid /\ is_end e = true
        /\ spliced L post out).
Proof.
  induction ls as [|l ls [IH1 IH2]]; split; cbn [closed_regions].
  - intros _. exists []. constructor.
  - discriminate.
  - destruct (is_begin l) eqn:B; intros H.
    + destruct (IH2 H) as (mid & e & post & out & -> & F & E & S).
      exists (l :: L ++ e :: out). now apply spliced_region.
    + destruct (IH1 H) as [out S]. exists (l :: out). now apply spliced_copy.
  - destruct (is_end l) eqn:E; cbn [negb]; intros H.
    + destruct (IH1 H) as [out S]. exists [], l, ls, out.
      repeat split; [constructor|exact E|exact S].
    + destruct (IH2 H) as (mid & e & post & out & -> & F & Ee & S).
      exists (l :: mid), e, post, out.
      repeat split; [now constructor|exact Ee|exact S].
Qed.

(** X1.  Whether [replace_lines] returns depends on the host file alone,
    not on the lines to insert: it returns exactly when every begin-marker
    line of the file is followed by an end-marker line, and it never
    returns otherwise. *)
Theorem replace_lines_returns_iff_closed (L : list str) (content : str) :
  ((exists out, replace_lines_returns L content out)
   <-> closed_regions false (readlines content) = true)
  /\ (replace_lines_diverges L content
      <-> closed_regions false (readlines content) = false).
Proof.
  assert (A : (exists out, replace_lines_returns L content out)
              <-> closed_regions false (readlines content) = true).
  { split.
    - intros [out K]. apply returns_spliced in K as (outl & S & _).
      exact (spliced_closed S).
    - intros H. destruct (proj1 (closed_spliced L (readlines content)) H)
        as [outl S].
      exists (concat outl). apply returns_spliced. now exists outl. }
  split; [exact A|]. split.
  - intros D. destruct (closed_regions false (readlines content)) eqn:C;
      [|reflexivity].
    destruct (proj2 A eq_refl) as [out [n K]]. rewrite D in K. discriminate.
  - intros C. apply diverges_iff_loops.
    destruct (@spliced_or_loops L (length (readlines content))
                (readlines content) (le_n _) (lines_ok_readlines content))
      as [[outl S]|N].
    + apply spliced_closed in S. congruence.
    + apply N.
Qed.

Lemma run_S (L : list str) (n : nat) (s s' : Splice.state) :
  Splice.step L s = inl s' -> Splice.run L (S n) s = Splice.run L n s'.
Proof. intros H. simpl. now rewrite H. Qed.

Lemma inner_skips_fuel (L mid : list str) (e : str) (post acc : list str) (k : nat) :
  lines_ok (mid ++ e :: post) -> Forall not_end mid -> is_end e = true ->
  Splice.run L (length mid + 1 + k) (at_lines Splice.Inner (mid ++ e :: post) acc)
  = Splice.run L k (at_lines Splice.Outer post (acc ++ [e])).
Proof.
  induction mid as [|m mid IH]; intros H F E.
  - cbn [length app Nat.add]. now rewrite (@run_S L _ _ _ (step_inner_end L acc H E)).
  - inversion F as [|? ? Hm Hmid]; subst. cbn [length app Nat.add].
    rewrite (@run_S L _ _ _ (step_inner_skip L acc H Hm)).
    apply IH; try assumption. exact (lines_ok_tl H).
Qed.

Lemma spliced_run_fuel (L ls out : list str) :
  spliced L ls out -> lines_ok ls ->
  forall acc,
    Splice.run L (2 * length ls + 1) (at_lines Splice.Outer ls acc)
    = Some (acc ++ out).
Proof.
  induction 1 as [|l ls out B Sp IH|b mid e post out B F E Sp IH]; intros H acc.
  - simpl. now rewrite app_nil_r.
  - replace (2 * length (l :: ls) + 1) with (S (S (2 * length ls + 1)))
      by (cbn [length]; lia).
    rewrite (@run_S L _ _ _ (step_outer_copy L acc H B)).
    apply (@run_mono L (2 * length ls + 1)); [|lia].
    rewrite (IH (lines_ok_tl H)). now rewrite <- app_assoc.
  - assert (He : lines_ok (e :: post)).
    { exact (lines_ok_app_r (b :: mid) (e :: post) H). }
    replace (2 * length (b :: mid ++ e :: post) + 1)
      with (S (length (b :: mid) + 1 + (length mid + (2 * length post + 1) + 1)))
      by (cbn [length]; rewrite length_app; cbn [length]; lia).
    rewrite (@run_S L _ _ _ (@step_outer_begin L b (mid ++ e :: post) acc B)).
    change (b :: mid ++ e :: post) with ((b :: mid) ++ e :: post).
    rewrite inner_skips_fuel; try assumption.
    + apply (@run_mono L (2 * length post + 1)); [|lia].
      rewrite (IH (lines_ok_tl He)). now repeat rewrite <- app_assoc.
    + constructor; [now apply begin_not_end|assumption].
Qed.

(** X2.  When [replace_lines] returns at all, its loops are left within
    twice the number of lines of the file plus one iterations; that much
    fuel decides whether it returns. *)
Theorem replace_lines_linear_fuel (L : list str) (content out : str) :
  replace_lines_returns L content out ->
  replace_lines (2 * length (readlines content) + 1) L content = Some out.
Proof.
  intros K. apply returns_spliced in K as (outl & S & ->).
  unfold replace_lines. rewrite start_at_lines.
  now rewrite (spliced_run_fuel S (lines_ok_readlines content) []).
Qed.

Lemma replace_lines_linear_fuel_witness :
  replace_lines 7 [lit "new" ++ [nl]]
    (BEGIN_MAKEMODULE ++ [nl] ++ lit "old" ++ [nl] ++ END_MAKEMODULE ++ [nl])
  = Some (BEGIN_MAKEMODULE ++ [nl] ++ lit "new" ++ [nl] ++ END_MAKEMODULE ++ [nl]).
Proof.
  apply (@replace_lines_linear_fuel [lit "new" ++ [nl]]
           (BEGIN_MAKEMODULE ++ [nl] ++ lit "old" ++ [nl] ++ END_MAKEMODULE ++ [nl])).
  exists 10. vm_compute. reflexivity.
Defined.

(** X3.  The last splice wins: after a run with lines [L] whose text, read
    back from the file, ends in a line feed and holds no end-marker line, a
    run with any lines [L'] leaves the file as a run with [L'] leaves the
    original file. *)
Theorem replace_lines_last_splice_wins (L L' : list str) (stored once : str) :
  reinsertable L = true ->
  replace_lines_file_returns L stored once ->
  forall out,
    replace_lines_file_returns L' once out
    <-> replace_lines_file_returns L' stored out.
Proof. exact (@file_resplice L L' stored once). Qed.

Lemma replace_lines_last_splice_wins_witness :
  let stored :=
    BEGIN_MAKEMODULE ++ [cr; nl] ++ lit "old" ++ [cr; nl] ++ END_MAKEMODULE
      ++ [cr; nl] in
  let once :=
    BEGIN_MAKEMODULE ++ [nl] ++ lit "a" ++ [cr] ++ lit "b" ++ [nl]
      ++ END_MAKEMODULE ++ [nl] in
  replace_lines_file_returns [lit "c" ++ [nl]] once
    (BEGIN_MAKEMODULE ++ [nl] ++ lit "c" ++ [nl] ++ END_MAKEMODULE ++ [nl]).
Proof.
  intros stored once.
  apply (@replace_lines_last_splice_wins
           [lit "a" ++ [cr]; lit "b" ++ [nl]] [lit "c" ++ [nl]] stored once).
  - vm_compute. reflexivity.
  - exists 10. vm_compute. reflexivity.
  - exists 10. vm_compute. reflexivity.
Defined.

(** ** The walk of the tree *)

Lemma node_induction (P : node -> Prop) :
  P File ->
  (forall es, Forall (fun e => P (snd e)) es -> P (Dir es)) ->
  forall n, P n.
Proof.
  intros HF HD.
  refine (fix IH (n : node) : P n :=
            match n with
            | File => HF
            | Dir es =>
                HD es
                  ((fix aux (l : list (str * node))
                      : Forall (fun e => P (snd e)) l :=
                      match l with
                      | [] => Forall_nil _
                      | e :: l' =>
                          @Forall_cons _ (fun e => P (snd e)) e l'
                            (IH (snd e)) (aux l')
                      end) es)
            end).
Qed.

Lemma in_below (A : Type) (g : str -> node -> list A) (es : list (str * node)) (t : A) :
  In t ((fix below (l : list (str * node)) : list A :=
           match l with
           | [] => []
           | (name, child) :: l' => g name child ++ below l'
           end) es)
  <-> exists name child, In (name, child) es /\ In t (g name child).
Proof.
  induction es as [|[name child] es IH].
  - split; [intros []|intros (? & ? & [] & _)].
  - rewrite in_app_iff, IH. split.
    + intros [H|(n & c & I & H)].
      * exists name, child. split; [now left|exact H].
      * exists n, c. split; [now right|exact H].
    + intros (n & c & [E|I] & H).
      * injection E as -> ->. now left.
      * right. now exists n, c.
Qed.

(** [os.walk] visits the directories below the top, each under the path
    that the joins of the names on the way give. *)
Lemma walk_spec (n : node) :
  forall top t,
    In t (walk top n)
    <-> exists segs es,
          dir_at n segs es
          /\ t = (join_all top segs, dirs_of es, files_of es).
Proof.
  induction n as [|es IH] using node_induction; intros top t.
  - split; [intros []|]. intros (segs & es & D & _). inversion D.
  - cbn [walk In]. rewrite in_below. split.
    + intros [<-|(name & child & I & H)].
      * exists [], es. split; [constructor|reflexivity].
      * rewrite Forall_forall in IH. specialize (IH _ I). cbn [snd] in IH.
        apply IH in H as (segs & es' & D & ->).
        destruct child as [|sub]; [inversion D|].
        exists (name :: segs), es'. split; [|reflexivity].
        now apply dir_below with sub.
    + intros (segs & es' & D & ->). inversion D as [|? name sub segs' ? I D']; subst.
      * now left.
      * right. exists name, (Dir sub). split; [exact I|].
        rewrite Forall_forall in IH. specialize (IH _ I). cbn [snd] in IH.
        apply IH. now exists segs', es'.
Qed.

Lemma in_files_of (f : str) (es : list (str * node)) :
  In f (files_of es) <-> In (f, File) es.
Proof.
  unfold files_of. rewrite in_map_iff. split.
  - intros ([name [|sub]] & <- & H); apply filter_In in H as [H C].
    + exact H.
    + discriminate C.
  - intros H. exists (f, File). split; [reflexivity|].
    apply filter_In. now split.
Qed.

Lemma in_dirs_of (d : str) (es : list (str * node)) :
  In d (dirs_of es) <-> exists sub, In (d, Dir sub) es.
Proof.
  unfold dirs_of. rewrite in_map_iff. split.
  - intros ([name [|sub]] & <- & H); apply filter_In in H as [H C].
    + discriminate C.
    + now exists sub.
  - intros [sub H]. exists (d, Dir sub). split; [reflexivity|].
    apply filter_In. now split.
Qed.

(** X4.  [find_files] returns exactly the regular files below the root
    whose names pass the test: a path is returned if and only if it is the
    join of the root, the names of directories leading from the root to some
    directory, and the name of a regular file of that directory which the
    include pattern matches and the exclude pattern does not. *)
Theorem find_files_exact
    (fs : node) (loc : str) (es : list (str * node))
    (include exclude : regex) (path : str) :
  lookup fs loc = Ok (Dir es) ->
  forall res,
    find_files fs loc include exclude = Ok res ->
    (In path res
     <-> exists segs es' f,
           dir_at (Dir es) segs es' /\ In (f, File) es'
           /\ accepts include exclude f = true
           /\ path = join (join_all loc segs) f).
Proof.
  intros Hl res. unfold find_files, os_walk, scandir. rewrite Hl. cbn [bind].
  remember (walk loc (Dir es)) as w eqn:Ew.
  intros [= <-]. rewrite in_flat_map. split.
  - intros ([[root dirs] files] & W & H). rewrite Ew in W.
    apply walk_spec in W as (segs & es' & D & [= -> -> ->]).
    apply in_map_iff in H as (f & <- & H).
    apply filter_In in H as [H A]. apply in_files_of in H.
    now exists segs, es', f.
  - intros (segs & es' & f & D & I & A & ->).
    exists (join_all loc segs, dirs_of es', files_of es'). split.
    + rewrite Ew. apply walk_spec. now exists segs, es'.
    + apply in_map. apply filter_In. split; [now apply in_files_of|exact A].
Qed.

Lemma find_files_exact_witness :
  let fs :=
    Dir [(lit "include",
          Dir [(lit "casm",
                Dir [(lit "app", Dir [(lit "Foo.hh", File); (lit "Foo.o", File)])])])] in
  In (lit "include/casm/app/Foo.hh") [lit "include/casm/app/Foo.hh"].
Proof.
  intros fs.
  apply (@find_files_exact fs (lit "include/casm")
           [(lit "app", Dir [(lit "Foo.hh", File); (lit "Foo.o", File)])]
           default_include default_exclude (lit "include/casm/app/Foo.hh")
           eq_refl [lit "include/casm/app/Foo.hh"]).
  - vm_compute. reflexivity.
  - exists [lit "app"], [(lit "Foo.hh", File); (lit "Foo.o", File)], (lit "Foo.hh").
    repeat split.
    + apply dir_below with [(lit "Foo.hh", File); (lit "Foo.o", File)];
        [now left|constructor].
    + now left.
Defined.

(** ** What the patterns of the script match *)

Lemma matches_cat_iff (r1 r2 : regex) (s : str) :
  matches (Cat r1 r2) s
  <-> exists a b, s = a ++ b /\ matches r1 a /\ matches r2 b.
Proof.
  split.
  - inversion 1 as [| |? ? a b Ha Hb| | | |]; subst. now exists a, b.
  - intros (a & b & -> & Ha & Hb). now constructor.
Qed.

Lemma matches_chr_iff (c : char) (s : str) : matches (Chr c) s <-> s = [c].
Proof.
  split.
  - inversion 1 as [|? x Hx| | | | |]; subst.
    apply N.eqb_eq in Hx. now subst.
  - intros ->. constructor. apply N.eqb_refl.
Qed.

Lemma matches_Lit_iff (p s : str) : matches (Lit p) s <-> s = p.
Proof.
  revert s. induction p as [|c p IH]; intros s.
  - simpl. split; [inversion 1; reflexivity|intros ->; constructor].
  - destruct p as [|d p'].
    + apply matches_chr_iff.
    + change (Lit (c :: d :: p')) with (Cat (Chr c) (Lit (d :: p'))).
      rewrite matches_cat_iff. split.
      * intros (a & b & -> & Ha & Hb). apply matches_chr_iff in Ha.
        apply IH in Hb. now subst.
      * intros ->. exists [c], (d :: p'). repeat split.
        -- now apply matches_chr_iff.
        -- now apply IH.
Qed.

Lemma matches_Alts_iff (rs : list regex) (s : str) :
  matches (Alts rs) s <-> exists r, In r rs /\ matches r s.
Proof.
  induction rs as [|r rs IH].
  - simpl. split; [inversion 1|intros (? & [] & _)].
  - destruct rs as [|r' rs'].
    + simpl. split.
      * intros H. exists r. split; [now left|exact H].
      * intros (x & [<-|[]] & H). exact H.
    + change (Alts (r :: r' :: rs')) with (Alt r (Alts (r' :: rs'))). split.
      * inversion 1 as [| | |? ? ? Hl|? ? ? Hr| |]; subst.
        -- exists r. split; [now left|exact Hl].
        -- apply IH in Hr as (x & I & Hx). exists x. split; [now right|exact Hx].
      * intros (x & [<-|I] & Hx); [now apply MAltL|].
        apply MAltR. apply IH. now exists x.
Qed.

Lemma matches_Alts_Lit (ps : list str) (s : str) :
  matches (Alts (List.map Lit ps)) s <-> In s ps.
Proof.
  rewrite matches_Alts_iff. split.
  - intros (r & I & H). apply in_map_iff in I as (p & <- & I).
    apply matches_Lit_iff in H. now subst.
  - intros I. exists (Lit s). split; [now apply in_map|now apply matches_Lit_iff].
Qed.

Lemma matches_star_dot (p : str) : matches (Star Dot) p <-> ~ In nl p.
Proof.
  split.
  - intros H. remember (Star Dot) as r eqn:Er. 
    induction H as [| | | | | |r0 s1 s2 H1 _ H2 IH2]; try discriminate.
    + intros [].
    + injection Er as ->. rewrite in_app_iff. intros [I|I].
      * inversion H1 as [|? x Hx| | | | |]; subst.
        destruct I as [E|[]]. rewrite E in Hx. discriminate Hx.
      * now apply IH2.
  - induction p as [|c p IH]; intros N; [constructor|].
    change (c :: p) with ([c] ++ p). apply MStarApp.
    + constructor. destruct (N.eqb_spec c nl) as [E|E]; [|reflexivity].
      exfalso. apply N. now left.
    + apply IH. intros I. apply N. now right.
Qed.

(** A pattern after '.*' is searched for in the part of the name before
    the first line feed. *)
Lemma matches_at_0_dotstar (r : regex) (s : str) :
  matches_at_0 (Cat (Star Dot) r) s
  <-> exists pre rest, s = pre ++ rest /\ ~ In nl pre /\ matches_at_0 r rest.
Proof.
  unfold matches_at_0. split.
  - intros (p & t & -> & H).
    apply matches_cat_iff in H as (a & b & -> & Ha & Hb).
    exists a, (b ++ t). rewrite <- app_assoc. repeat split.
    + now apply matches_star_dot.
    + now exists b, t.
  - intros (pre & rest & -> & N & p & t & -> & H).
    exists (pre ++ p), t. rewrite <- app_assoc. split; [reflexivity|].
    apply MCat; [now apply matches_star_dot|exact H].
Qed.

Lemma matches_at_0_dot_ext (exts : list str) (s : str) :
  matches_at_0 (Cat (Star Dot) (Cat (Chr period) (Alts (List.map Lit exts)))) s
  <-> exists pre ext rest,
        s = pre ++ period :: ext ++ rest /\ ~ In nl pre /\ In ext exts.
Proof.
  rewrite matches_at_0_dotstar. unfold matches_at_0. split.
  - intros (pre & rest & -> & N & p & t & -> & H).
    apply matches_cat_iff in H as (a & b & -> & Ha & Hb).
    apply matches_chr_iff in Ha. subst a. apply matches_Alts_Lit in Hb.
    exists pre, b, t. cbn [app]. now repeat split.
  - intros (pre & ext & rest & -> & N & I).
    exists pre, (period :: ext ++ rest). repeat split; [exact N|].
    exists (period :: ext), rest. split; [reflexivity|].
    change (period :: ext) with ([period] ++ ext).
    apply MCat; [now apply matches_chr_iff|now apply matches_Alts_Lit].
Qed.

(** X5.  The default exclude pattern is not tied to the end of the name:
    it matches exactly the names in which a period and one of the nine
    extensions occur somewhere before any line feed.  So [find_files]
    rejects every name that holds [.o] anywhere, whatever the include
    pattern: [Foo.object.hh] as well as [Foo.o]. *)
Theorem default_exclude_anywhere :
  (forall f,
     re_match default_exclude f = true
     <-> exists pre ext rest,
           f = pre ++ period :: ext ++ rest /\ ~ In nl pre
           /\ In ext excluded_exts)
  /\ (forall include pre rest,
        ~ In nl pre ->
        accepts include default_exclude (pre ++ lit ".o" ++ rest) = false).
Proof.
  assert (A : forall f,
             re_match default_exclude f = true
             <-> exists pre ext rest,
                   f = pre ++ period :: ext ++ rest /\ ~ In nl pre
                   /\ In ext excluded_exts).
  { intros f. rewrite re_match_correct. apply matches_at_0_dot_ext. }
  split; [exact A|]. intros include pre rest N. unfold accepts.
  assert (E : re_match default_exclude (pre ++ lit ".o" ++ rest) = true).
  { apply A. exists pre, (lit "o"), rest. repeat split; [exact N|].
    unfold excluded_exts. cbn [In]. tauto. }
  rewrite E. apply andb_false_r.
Qed.

Example default_exclude_object_header :
  accepts default_include default_exclude (lit "Foo.object.hh") = false.
Proof. vm_compute. reflexivity. Qed.

(** X6.  The include pattern of the library sources matches a name exactly
    when a period followed by [c] or [C] occurs in it before any line feed:
    names such as [style.css] or [notes.Copy] pass it, not only names that
    end in [.c], [.cc], [.cpp] or [.C]. *)
Theorem src_include_anywhere (f : str) :
  re_match src_include f = true
  <-> exists pre c rest,
        f = pre ++ period :: c :: rest /\ ~ In nl pre
        /\ (c = 99%N \/ c = 67%N).
Proof.
  rewrite re_match_correct. unfold src_include.
  rewrite matches_at_0_dot_ext. split.
  - intros (pre & ext & rest & -> & N & I). cbn [In] in I.
    destruct I as [ <- | [ <- | [ <- | [ <- | [] ] ] ] ].
    + exists pre, 99%N, rest. repeat split; [exact N|now left].
    + exists pre, 99%N, (99%N :: rest). repeat split; [exact N|now left].
    + exists pre, 99%N, (lit "pp" ++ rest). repeat split; [exact N|now left].
    + exists pre, 67%N, rest. repeat split; [exact N|now right].
  - intros (pre & c & rest & -> & N & [ -> | -> ]).
    + exists pre, (lit "c"), rest. repeat split; [exact N|now left].
    + exists pre, (lit "C"), rest. repeat split; [exact N|].
      cbn [In]. tauto.
Qed.

Example src_include_stylesheet :
  accepts src_include src_exclude (lit "style.css") = true
  /\ accepts src_include src_exclude (lit "test_gunzip.C") = false
  /\ accepts src_include src_exclude (lit "main.cpp") = true.
Proof. repeat split; vm_compute; reflexivity. Qed.

Lemma re_match_rm_pattern (f : str) :
  re_match rm_pattern f = true
  <-> exists c t,
        f = lit "Makemodule" ++ c :: lit "am" ++ t /\ c <> nl.
Proof.
  rewrite re_match_correct. unfold matches_at_0, rm_pattern. split.
  - intros (p & t & -> & H).
    apply matches_cat_iff in H as (a & b & -> & Ha & Hb).
    apply matches_Lit_iff in Ha. subst a.
    apply matches_cat_iff in Hb as (d & b' & -> & Hd & Hb).
    inversion Hd as [|? c Hc| | | | |]; subst.
    apply matches_cat_iff in Hb as (a & s' & -> & Ha & _).
    apply matches_Lit_iff in Ha. subst a.
    exists c, (s' ++ t). split.
    + now rewrite <- !app_assoc.
    + intros ->. discriminate Hc.
  - intros (c & t & -> & N).
    exists (lit "Makemodule" ++ [c] ++ lit "am" ++ []), t. split.
    + rewrite <- !app_assoc. reflexivity.
    + apply MCat; [now apply matches_Lit_iff|].
      apply MCat.
      * constructor. destruct (N.eqb_spec c nl) as [E|E]; [|reflexivity].
        contradiction.
      * apply MCat; [now apply matches_Lit_iff|constructor].
Qed.

(** X7.  [rm_existing] removes exactly the regular files, anywhere below
    the working directory, whose name is [Makemodule], one character other
    than a line feed, [am], and anything after that: the period of the
    pattern is not escaped, so that [Makemodule_am] and [MakemoduleSample]
    are removed like [Makemodule.am] and [Makemodule.am.test].  Every name
    that begins with [Makemodule.am] is among them, and [find_files]
    rejects each of these under the default exclude pattern. *)
Theorem rm_existing_removes (fs : node) :
  (forall path,
     In path (rm_existing fs)
     <-> exists segs es f c t,
           dir_at fs segs es /\ In (f, File) es
           /\ f = lit "Makemodule" ++ c :: lit "am" ++ t /\ c <> nl
           /\ path = join (join_all getcwd segs) f)
  /\ (forall include t,
        re_match rm_pattern (lit "Makemodule.am" ++ t) = true
        /\ accepts include default_exclude (lit "Makemodule.am" ++ t) = false).
Proof.
  split.
  - intros path. unfold rm_existing.
    assert (W : forall t0, In t0 (os_walk fs getcwd)
                <-> exists segs es,
                      dir_at fs segs es
                      /\ t0 = (join_all getcwd segs, dirs_of es, files_of es)).
    { intros t0. destruct fs as [|es0].
      - split; [intros []|]. intros (segs & es & D & _). inversion D.
      - change (os_walk (Dir es0) getcwd) with (walk getcwd (Dir es0)).
        apply walk_spec. }
    rewrite in_flat_map. split.
    + intros ([[root dirs] files] & Hw & H).
      apply W in Hw as (segs & es & D & [= -> -> ->]).
      apply in_map_iff in H as (f & <- & H).
      apply filter_In in H as [H M]. apply in_files_of in H.
      apply re_match_rm_pattern in M as (c & t & -> & N).
      exists segs, es, (lit "Makemodule" ++ c :: lit "am" ++ t), c, t.
      now repeat split.
    + intros (segs & es & f & c & t & D & I & -> & N & ->).
      exists (join_all getcwd segs, dirs_of es, files_of es). split.
      * apply W. now exists segs, es.
      * apply in_map. apply filter_In. split; [now apply in_files_of|].
        apply re_match_rm_pattern. now exists c, t.
  - intros include t. split.
    + apply re_match_rm_pattern. exists period, t. split; [reflexivity|discriminate].
    + unfold accepts.
      assert (E : re_match default_exclude (lit "Makemodule.am" ++ t) = true).
      { apply re_match_correct. apply matches_at_0_dot_ext.
        exists (lit "Makemodule"), (lit "am"), t.
        repeat split.
        - apply existsb_eqb_In. reflexivity.
        - cbn [In]. tauto. }
      rewrite E. apply andb_false_r.
Qed.

Example rm_existing_sample :
  rm_existing
    (Dir [(lit "Makemodule_am", File);
          (lit "src", Dir [(lit "Makemodule.am", File); (lit "a.cpp", File)])])
  = [lit "/Makemodule_am"; lit "/src/Makemodule.am"].
Proof. vm_compute. reflexivity. Qed.

(** ** includedir: the grouping of the files *)

Lemma data_append_new (data : list (str * list str)) (dir file : str) :
  ~ In dir (List.map fst data) ->
  data_append data dir file = data ++ [(dir, [file])].
Proof.
  induction data as [|[d fl] data IH]; intros N; [reflexivity|].
  cbn [data_append app]. destruct (str_eqb d dir) eqn:E.
  - apply str_eqb_eq in E. subst. exfalso. apply N. now left.
  - rewrite IH; [reflexivity|]. intros I. apply N. now right.
Qed.

Lemma data_append_old (data : list (str * list str)) (dir file : str) :
  NoDup (List.map fst data) -> In dir (List.map fst data) ->
  data_append data dir file
  = List.map (fun e => if str_eqb (fst e) dir
                       then (fst e, snd e ++ [file]) else e) data.
Proof.
  induction data as [|[d fl] data IH]; intros Nd I; [destruct I|].
  cbn [data_append List.map fst snd]. inversion Nd as [|? ? Hd Nd']; subst.
  destruct (str_eqb d dir) eqn:E.
  - apply str_eqb_eq in E. subst d. f_equal.
    clear IH I Nd Nd'. induction data as [|[d' fl'] data IH]; [reflexivity|].
    cbn [List.map fst snd].
    destruct (str_eqb d' dir) eqn:E'.
    + apply str_eqb_eq in E'. subst. exfalso. apply Hd. now left.
    + f_equal. apply IH. intros I. apply Hd. now right.
  - f_equal. apply IH; [exact Nd'|]. destruct I as [I|I]; [|exact I].
    cbn [fst] in I. subst. now rewrite str_eqb_refl in E.
Qed.

Lemma files_in_snoc (dir : str) (seen : list str) (file : str) :
  files_in dir (seen ++ [file])
  = files_in dir seen ++ (if str_eqb (dirname file) dir then [file] else []).
Proof. unfold files_in. rewrite filter_app. reflexivity. Qed.

Lemma files_in_nil_iff (dir : str) (seen : list str) :
  files_in dir seen = [] <-> forall file, In file seen -> dirname file <> dir.
Proof.
  unfold files_in. split.
  - intros H file I E.
    assert (K : In file (filter (fun f => str_eqb (dirname f) dir) seen)).
    { apply filter_In. split; [exact I|now apply str_eqb_eq]. }
    rewrite H in K. destruct K.
  - intros H. destruct (filter _ seen) as [|x xs] eqn:F; [reflexivity|].
    assert (K : In x (filter (fun f => str_eqb (dirname f) dir) seen))
      by (rewrite F; now left).
    apply filter_In in K as [I E]. apply str_eqb_eq in E.
    exfalso. exact (H x I E).
Qed.

Lemma NoDup_snoc (A : Type) (l : list A) (x : A) :
  NoDup l -> ~ In x l -> NoDup (l ++ [x]).
Proof.
  intros Nd N. induction Nd as [|y l Hy Nd IH]; simpl.
  - constructor; [intros []|constructor].
  - constructor.
    + rewrite in_app_iff. intros [I|[E|[]]]; [contradiction|].
      subst. apply N. now left.
    + apply IH. intros I. apply N. now right.
Qed.

Lemma grouped_step (data : list (str * list str)) (seen : list str) (file : str) :
  grouped data seen ->
  grouped (data_append data (dirname file) file) (seen ++ [file]).
Proof.
  intros (Nd & G & C).
  destruct (in_dec (list_eq_dec N.eq_dec) (dirname file) (List.map fst data))
    as [I|N].
  - rewrite (@data_append_old data (dirname file) file Nd I).
    set (upd := fun e : str * list str =>
                  if str_eqb (fst e) (dirname file)
                  then (fst e, snd e ++ [file]) else e).
    assert (K : List.map fst (List.map upd data) = List.map fst data).
    { rewrite map_map. apply map_ext. intros [d fl]. unfold upd. cbn [fst snd].
      now destruct (str_eqb d (dirname file)). }
    split; [|split].
    + now rewrite K.
    + intros dir fl H.
      apply in_map_iff in H as ([d fl0] & E & Hin).
      destruct (G _ _ Hin) as [Ne Ef]. unfold upd in E. cbn [fst snd] in E.
      rewrite files_in_snoc.
      destruct (str_eqb d (dirname file)) eqn:Ed; injection E as <- <-.
      * apply str_eqb_eq in Ed. subst d. rewrite str_eqb_refl.
        split; [now destruct fl0|now rewrite Ef].
      * assert (Ed' : str_eqb (dirname file) d = false).
        { apply str_eqb_neq. apply str_eqb_neq in Ed. congruence. }
        rewrite Ed', app_nil_r. now split.
    + intros f Hf. rewrite K. apply in_app_iff in Hf as [Hf|[<-|[]]];
        [now apply C|exact I].
  - rewrite (@data_append_new data (dirname file) file N).
    split; [|split].
    + rewrite map_app. cbn [List.map fst]. now apply NoDup_snoc.
    + intros dir fl H. rewrite files_in_snoc.
      apply in_app_iff in H as [Hin|[E|[]]].
      * destruct (G _ _ Hin) as [Ne Ef].
        assert (Nd' : str_eqb (dirname file) dir = false).
        { apply str_eqb_neq. intros <-. apply N.
          apply in_map_iff. now exists (dirname file, fl). }
        rewrite Nd', app_nil_r. now split.
      * injection E as <- <-. rewrite str_eqb_refl.
        assert (Z : files_in (dirname file) seen = []).
        { apply files_in_nil_iff. intros f Hf E. apply N. rewrite <- E.
          now apply C. }
        rewrite Z. split; [discriminate|reflexivity].
    + intros f Hf. rewrite map_app, in_app_iff. cbn [List.map fst In].
      apply in_app_iff in Hf as [Hf|[<-|[]]]; [left; now apply C|right; now left].
Qed.

Lemma grouped_fold (files : list str) :
  forall data seen,
    grouped data seen ->
    grouped
      (fold_left (fun data file => data_append data (fst (os_path_split file)) file)
                 files data)
      (seen ++ files).
Proof.
  induction files as [|file files IH]; intros data seen G.
  - now rewrite app_nil_r.
  - cbn [fold_left].
    replace (seen ++ file :: files) with ((seen ++ [file]) ++ files)
      by (rewrite <- app_assoc; reflexivity).
    apply IH. exact (@grouped_step data seen file G).
Qed.

Lemma includedir_data_grouped (files : list str) :
  grouped (includedir_data files) files.
Proof.
  apply (@grouped_fold files [] []).
  split; [constructor|split]; [intros ? ? []|intros ? []].
Qed.

(** X8.  The first loop of [includedir] groups the files by their
    directory: the keys of [data] are distinct, a pair of a directory and a
    list is in [data] exactly when the list is not empty and is the list of
    the files of that directory, in the order [find_files] gave them; so
    every file is listed, and under its own directory only. *)
Theorem includedir_data_groups (files : list str) :
  NoDup (List.map fst (includedir_data files))
  /\ (forall dir fl,
        In (dir, fl) (includedir_data files)
        <-> fl <> [] /\ fl = files_in dir files)
  /\ (forall file,
        In file files ->
        exists fl, In (dirname file, fl) (includedir_data files) /\ In file fl).
Proof.
  destruct (includedir_data_grouped files) as (Nd & G & C).
  assert (K : forall file, In file files ->
              exists fl, In (dirname file, fl) (includedir_data files)
                         /\ In file fl).
  { intros file I. specialize (C file I).
    apply in_map_iff in C as ([d fl] & E & Hin). cbn [fst] in E. subst d.
    exists fl. split; [exact Hin|].
    destruct (G _ _ Hin) as [_ ->]. apply filter_In.
    split; [exact I|apply str_eqb_refl]. }
  split; [exact Nd|split; [|exact K]].
  intros dir fl. split; [now apply G|].
  intros [Ne ->].
  destruct (files_in dir files) as [|x xs] eqn:F; [congruence|].
  assert (I : In x (files_in dir files)) by (rewrite F; now left).
  apply filter_In in I as [I E]. apply str_eqb_eq in E.
  destruct (K x I) as (fl & Hin & _). rewrite E in Hin.
  destruct (G _ _ Hin) as [_ Ef]. rewrite F in Ef. now subst fl.
Qed.

Example includedir_data_sample :
  includedir_data [lit "i/c/a.hh"; lit "i/c/x/b.hh"; lit "i/c/z.hh"]
  = [(lit "i/c", [lit "i/c/a.hh"; lit "i/c/z.hh"]); (lit "i/c/x", [lit "i/c/x/b.hh"])].
Proof. vm_compute. reflexivity. Qed.

(** ** includedir: the entry of a directory *)

Lemma split_with_sep (c : char) (s : str) :
  In c s -> exists w x ws, split c s = w :: x :: ws.
Proof.
  induction s as [|y s IH]; intros I; [destruct I|]. simpl.
  destruct (N.eqb y c) eqn:E.
  - pose proof (split_nonempty c s) as N.
    destruct (split c s) as [|x ws]; [congruence|]. now exists [], x, ws.
  - destruct I as [I|I]; [subst; now rewrite N.eqb_refl in E|].
    destruct (IH I) as (w & x & ws & ->). now exists (y :: w), x, ws.
Qed.

Lemma subpath_parts_nil_iff (dir : str) :
  subpath_parts dir = [] <-> ~ In sep dir.
Proof.
  unfold subpath_parts. split.
  - intros H I. destruct (split_with_sep sep dir I) as (w & x & ws & E).
    rewrite E in H. discriminate.
  - intros N. now rewrite split_without.
Qed.

Lemma split_parts_without (c : char) (s : str) :
  Forall (fun p => ~ In c p) (split c s).
Proof.
  induction s as [|x s IH]; simpl.
  - constructor; [intros []|constructor].
  - destruct (N.eqb x c) eqn:E.
    + constructor; [intros []|exact IH].
    + destruct (split c s) as [|w ws]; [constructor; [|constructor]|].
      * intros [I|[]]. subst. now rewrite N.eqb_refl in E.
      * inversion IH as [|? ? Hw Hws]; subst. constructor; [|exact Hws].
        intros [I|I]; [subst; now rewrite N.eqb_refl in E|contradiction].
Qed.

Lemma endswith_app_part (acc x : str) :
  x <> [] -> ~ In sep x -> endswith [sep] (acc ++ x) = false.
Proof.
  intros Nx N. unfold endswith. rewrite rev_app_distr.
  destruct (rev x) as [|c r] eqn:R.
  - apply (f_equal (@rev char)) in R. rewrite rev_involutive in R.
    contradiction.
  - cbn [app rev startswith]. rewrite andb_true_r.
    apply N.eqb_neq. intros <-. apply N. apply in_rev. rewrite R. now left.
Qed.

Lemma no_sep_startswith_In (x : str) : ~ In sep x -> startswith [sep] x = false.
Proof. intros N. apply no_sep_startswith. now apply existsb_eqb_In. Qed.

(** [os.path.join] over parts that are not empty and hold no slash puts
    one slash between them. *)
Lemma join_all_parts (p : list str) :
  forall acc,
    acc <> [] -> endswith [sep] acc = false ->
    Forall (fun x => x <> [] /\ ~ In sep x) p ->
    join_all acc p = acc ++ concat (List.map (cons sep) p).
Proof.
  unfold join_all.
  induction p as [|x p IH]; intros acc Na Ea F; cbn [fold_left List.map concat].
  - now rewrite app_nil_r.
  - inversion F as [|? ? [Nx Sx] F']; subst.
    rewrite (join_plain _ Na Ea) by now apply no_sep_startswith_In.
    rewrite IH; try assumption.
    + rewrite <- app_assoc. reflexivity.
    + destruct acc; discriminate.
    + change (acc ++ sep :: x) with (acc ++ [sep] ++ x).
      rewrite app_assoc. now apply endswith_app_part.
Qed.

Lemma join_with_concat (c : char) (a : str) (p : list str) :
  join_with [c] (a :: p) = a ++ concat (List.map (cons c) p).
Proof.
  revert a. induction p as [|x p IH]; intros a.
  - simpl. now rewrite app_nil_r.
  - rewrite join_with_cons by discriminate. rewrite IH. reflexivity.
Qed.

Lemma join_with_snoc (c : char) (parts : list str) (x : str) :
  parts <> [] -> join_with [c] (parts ++ [x]) = join_with [c] parts ++ c :: x.
Proof.
  destruct parts as [|a p]; [congruence|]. intros _.
  cbn [app]. rewrite !join_with_concat, map_app, concat_app.
  cbn [List.map concat]. now rewrite app_nil_r, <- app_assoc.
Qed.

Lemma join_with_split_map (c u : char) (s : str) :
  join_with [u] (split c s)
  = List.map (fun x => if N.eqb x c then u else x) s.
Proof.
  induction s as [|x s IH]; [reflexivity|]. cbn [split List.map].
  destruct (N.eqb x c) eqn:E.
  - rewrite join_with_cons by apply split_nonempty. now rewrite IH.
  - destruct (split c s) as [|w ws] eqn:S.
    + now apply split_nonempty in S.
    + rewrite join_with_cons_char. now rewrite IH.
Qed.

(** X9.  For a directory [first/rest] whose path after the first component
    has no empty component, [includedir] names the install directory after
    [rest] with underscores for the slashes and [_include] at the end, sets
    it to [$(includedir)/rest], and assigns the files of the directory to
    the HEADERS variable of that name. *)
Theorem includedir_entry_text (f first rest : str) (filelist : list str) :
  existsb (N.eqb sep) first = false ->
  forallb (fun part => negb (str_eqb part [])) (split sep rest) = true ->
  let name := slashes_to_underscores rest ++ lit "_include" in
  subpathname (first ++ sep :: rest) = name
  /\ includedir_entry f (first ++ sep :: rest) filelist
     = Ok (f ++ (name ++ lit "dir=$(includedir)/" ++ rest ++ [nl; nl])
             ++ assignment (name ++ lit "_HEADERS = " ++ [bslash; nl]) filelist).
Proof.
  intros Hf Hp name. apply existsb_eqb_In in Hf.
  assert (P : subpath_parts (first ++ sep :: rest) = split sep rest).
  { unfold subpath_parts. now rewrite split_app_sep. }
  assert (Nn : subpathname (first ++ sep :: rest) = name).
  { unfold subpathname, name, slashes_to_underscores. rewrite P.
    rewrite join_with_snoc by apply split_nonempty.
    now rewrite join_with_split_map. }
  split; [exact Nn|].
  unfold includedir_entry. rewrite Nn, P.
  pose proof (split_nonempty sep rest) as Ns.
  pose proof (split_parts_without sep rest) as Nw.
  pose proof (join_with_split sep rest) as J.
  destruct (split sep rest) as [|a p]; [congruence|].
  cbn [forallb] in Hp. apply andb_true_iff in Hp as [Ha Hp].
  pose proof (Forall_inv Nw) as Sa. pose proof (Forall_inv_tail Nw) as Sp.
  assert (Na : a <> []).
  { apply negb_true_iff, str_eqb_neq in Ha. exact Ha. }
  rewrite join_all_parts.
  - rewrite <- join_with_concat, J, write_option_assignment.
    unfold write. rewrite <- (app_assoc f). reflexivity.
  - exact Na.
  - change a with ([] ++ a). now apply endswith_app_part.
  - apply Forall_forall. intros x I. split.
    + rewrite forallb_forall in Hp. specialize (Hp x I).
      now apply negb_true_iff, str_eqb_neq in Hp.
    + rewrite Forall_forall in Sp. now apply Sp.
Qed.

Lemma includedir_entry_text_witness :
  includedir_entry [] (lit "include/casm/app") [lit "include/casm/app/Foo.hh"]
  = Ok (lit "casm_app_includedir=$(includedir)/casm/app" ++ [nl; nl]
          ++ lit "casm_app_include_HEADERS = " ++ [bslash; nl]
          ++ lit "  include/casm/app/Foo.hh" ++ [nl; nl]).
Proof.
  destruct (@includedir_entry_text [] (lit "include") (lit "casm/app")
              [lit "include/casm/app/Foo.hh"] eq_refl eq_refl) as [_ E].
  exact E.
Defined.

Lemma includedir_fold_raise (data : list (str * list str)) (e : exn) :
  fold_left
    (fun (r : result str) '(dir, filelist) =>
       f <- r ;; includedir_entry f dir filelist)
    data (Raise e)
  = Raise e.
Proof. induction data as [|[d fl] data IH]; [reflexivity|exact IH]. Qed.

Lemma includedir_entry_cases (f dir : str) (filelist : list str) :
  (In sep dir -> exists t, includedir_entry f dir filelist = Ok (f ++ t))
  /\ (~ In sep dir -> includedir_entry f dir filelist = Raise TypeError).
Proof.
  unfold includedir_entry. split.
  - intros I. destruct (subpath_parts dir) as [|a p] eqn:P.
    + apply subpath_parts_nil_iff in P. contradiction.
    + rewrite write_option_assignment. unfold write. rewrite <- app_assoc.
      eexists. reflexivity.
  - intros N. apply subpath_parts_nil_iff in N. now rewrite N.
Qed.

Lemma includedir_fold (data : list (str * list str)) :
  forall f,
    (Forall (fun e => In sep (fst e)) data ->
     exists t,
       fold_left
         (fun (r : result str) '(dir, filelist) =>
            f <- r ;; includedir_entry f dir filelist)
         data (Ok f)
       = Ok (f ++ t))
    /\ (Exists (fun e => ~ In sep (fst e)) data ->
        fold_left
          (fun (r : result str) '(dir, filelist) =>
             f <- r ;; includedir_entry f dir filelist)
          data (Ok f)
        = Raise TypeError).
Proof.
  induction data as [|[d fl] data IH]; intros f.
  - split; [intros _; exists []; now rewrite app_nil_r|inversion 1].
  - cbn [fold_left bind]. destruct (includedir_entry_cases f d fl) as [Hok Hbad].
    split.
    + intros F. inversion F as [|? ? Hd F']; subst. cbn [fst] in Hd.
      destruct (Hok Hd) as [t ->].
      destruct (proj1 (IH (f ++ t)) F') as [t' Ht'].
      exists (t ++ t'). rewrite app_assoc. exact Ht'.
    + intros E.
      destruct (in_dec N.eq_dec sep d) as [I|N].
      * destruct (Hok I) as [t ->]. apply IH.
        inversion E as [? ? Hd|? ? E']; subst; [contradiction|exact E'].
      * rewrite (Hbad N). apply includedir_fold_raise.
Qed.

(** X10.  [includedir] raises TypeError exactly when [find_files] returns a
    file whose directory path holds no slash, as for a file right below a
    root of one component: [os.path.join] is then called without argument.
    Otherwise it returns, and what was written to [f] before is still at
    the start of the text. *)
Theorem includedir_type_error
    (fs : node) (f loc : str) (include exclude : regex) (files : list str) :
  find_files fs loc include exclude = Ok files ->
  (includedir fs f loc include exclude = Raise TypeError
   <-> exists file, In file files /\ ~ In sep (dirname file))
  /\ ((forall file, In file files -> In sep (dirname file)) ->
      exists t, includedir fs f loc include exclude = Ok (f ++ t)).
Proof.
  intros Hf.
  assert (U : includedir fs f loc include exclude
              = fold_left
                  (fun (r : result str) '(dir, filelist) =>
                     f <- r ;; includedir_entry f dir filelist)
                  (includedir_data files) (Ok f)).
  { unfold includedir. rewrite Hf. reflexivity. }
  destruct (includedir_data_grouped files) as (_ & G & C).
  destruct (includedir_fold (includedir_data files) f) as [Hok Hbad].
  assert (Keys : forall e, In e (includedir_data files) ->
                 exists file, In file files /\ dirname file = fst e).
  { intros [d fl] Hin. destruct (G _ _ Hin) as [Ne Ef]. cbn [fst].
    destruct fl as [|x xs]; [congruence|].
    assert (I : In x (files_in d files)) by (rewrite <- Ef; now left).
    apply filter_In in I as [I E]. apply str_eqb_eq in E. now exists x. }
  assert (Good : (forall file, In file files -> In sep (dirname file)) ->
                 exists t, includedir fs f loc include exclude = Ok (f ++ t)).
  { intros A. rewrite U. apply Hok. apply Forall_forall. intros e Hin.
    destruct (Keys e Hin) as (file & I & E).
    pose proof (A file I) as K. rewrite E in K. exact K. }
  split; [|exact Good]. split.
  - intros R.
    destruct (Exists_dec (fun file => ~ In sep (dirname file)) files) as [E|N].
    + intros file. destruct (in_dec N.eq_dec sep (dirname file)); [right|left]; tauto.
    + apply Exists_exists in E. exact E.
    + exfalso. destruct Good as [t Ht]; [|congruence].
      intros file I. destruct (in_dec N.eq_dec sep (dirname file)) as [|M];
        [assumption|].
      exfalso. apply N. apply Exists_exists. now exists file.
  - intros (file & I & N). rewrite U. apply Hbad.
    apply Exists_exists. specialize (C file I).
    apply in_map_iff in C as (e & E & Hin). exists e. split; [exact Hin|].
    intros K. apply N. rewrite <- E. exact K.
Qed.

Lemma includedir_type_error_witness :
  includedir (Dir [(lit "include", Dir [(lit "x.hh", File)])]) []
    (lit "include") default_include default_exclude
  = Raise TypeError.
Proof.
  apply (@includedir_type_error (Dir [(lit "include", Dir [(lit "x.hh", File)])])
           [] (lit "include") default_include default_exclude
           [lit "include/x.hh"] eq_refl).
  exists (lit "include/x.hh"). split; [now left|].
  apply existsb_eqb_In. reflexivity.
Defined.

(** ** The run wrapper and the places that name it *)

Lemma join_app_r (a b c : str) : b <> [] -> join a (b ++ c) = join a b ++ c.
Proof.
  destruct b as [|x b]; [congruence|]. intros _. unfold join.
  cbn [app startswith]. destruct (N.eqb sep x && true); [reflexivity|].
  destruct a as [|y a]; [reflexivity|].
  destruct (endswith [sep] (y :: a)); now rewrite <- !app_assoc.
Qed.

(** X11.  The three places that name the run wrapper of a group agree, for
    every group name: [run_test_in] writes the template to the path that the
    TESTS entry of [testdir] and the AC_CONFIG_FILES line for configure.ac
    name, followed by [.in]. *)
Theorem run_wrapper_paths_agree (group : str) :
  let runtest :=
    join_all (lit "tests") [lit "unit"; group; lit "run_test_" ++ group] in
  fst (run_test_in group) = runtest ++ lit ".in"
  /\ configure_lines [group]
     = [lit "AC_CONFIG_FILES([" ++ runtest ++ lit "], [chmod +x " ++ runtest
          ++ lit "])" ++ [nl]]
  /\ forall fs f,
       exists before,
         testdir fs f group
         = before ++ lit "TESTS += " ++ [bslash; nl]
             ++ lit "  " ++ runtest ++ [nl; nl].
Proof.
  intros runtest. split; [|split].
  - unfold run_test_in, runtest, join_all. cbn [fst fold_left].
    change (join (lit "tests") (lit "unit")) with unittest_dir.
    rewrite (app_assoc (lit "run_test_")).
    apply join_app_r. discriminate.
  - reflexivity.
  - intros fs f. rewrite testdir_text. fold runtest.
    unfold assignment at 6. cbn [value_lines].
    match goal with
    | |- exists _, ?a0 ++ ?a1 ++ ?a2 ++ ?a3 ++ ?a4 ++ ?a5 ++ _ = _ =>
        exists (a0 ++ a1 ++ a2 ++ a3 ++ a4 ++ a5)
    end.
    rewrite <- !app_assoc. reflexivity.
Qed.

(** ** The lines for configure.ac *)

Lemma join_without (c : char) (a b : str) :
  c <> sep -> ~ In c a -> ~ In c b -> ~ In c (join a b).
Proof.
  intros Nc Na Nb. unfold join. destruct (startswith [sep] b); [exact Nb|].
  destruct a as [|x a]; [exact Nb|].
  destruct (endswith [sep] (x :: a)); rewrite ?in_app_iff; cbn [In];
    intros H; repeat destruct H as [H|H]; try contradiction;
    try (apply Na; assumption); try (now symmetry in H).
  - apply Na. now left.
  - apply Na. now right.
  - apply Na. now left.
  - apply Na. now right.
Qed.

Lemma lit_without (c : char) (s : String.string) :
  existsb (N.eqb c) (lit s) = false -> ~ In c (lit s).
Proof. apply existsb_eqb_In. Qed.

(** A line for configure.ac holds the characters of the group name and
    those of its fixed parts. *)
Lemma configure_line_without (c : char) (name : str) :
  c <> sep -> ~ In c name ->
  existsb (N.eqb c) (lit "AC_CONFIG_FILES([tests/unit/run_test_], [chmod +x ])")
  = false ->
  let runtest :=
    join_all (lit "tests") [lit "unit"; name; lit "run_test_" ++ name] in
  ~ In c (lit "AC_CONFIG_FILES([" ++ runtest ++ lit "], [chmod +x " ++ runtest
           ++ lit "])").
Proof.
  intros Nc N Hl runtest.
  assert (P : forall x, In x (lit "AC_CONFIG_FILES([tests/unit/run_test_], [chmod +x ])")
                        -> x <> c).
  { intros x Hx E. subst x. apply existsb_eqb_In in Hl. contradiction. }
  assert (Nr : ~ In c runtest).
  { unfold runtest, join_all. cbn [fold_left].
    apply join_without; [exact Nc| |].
    - apply join_without; [exact Nc| |exact N].
      apply join_without; [exact Nc| |]; intros H; apply (P c); trivial;
        vm_compute in H |- *; tauto.
    - rewrite in_app_iff. intros [H|H]; [|contradiction].
      apply (P c); trivial. vm_compute in H |- *. tauto. }
  rewrite !in_app_iff. intros [H|[H|[H|[H|H]]]]; try contradiction;
    apply (P c); trivial; vm_compute in H |- *; tauto.
Qed.

(** X12.  For group names without line feed and without carriage return,
    [main] gives configure.ac one line per group: the text of the lines is
    stored and read back as it is, read line by line it is these same lines,
    none of them is a begin or an end marker, and they can be spliced into
    the file again without change. *)
Theorem configure_lines_are_lines (names : list str) :
  Forall (fun name => ~ In nl name /\ ~ In cr name) names ->
  read_text (concat (configure_lines names)) = concat (configure_lines names)
  /\ readlines (read_text (concat (configure_lines names)))
     = configure_lines names
  /\ Forall not_begin (configure_lines names)
  /\ Forall not_end (configure_lines names)
  /\ reinsertable (configure_lines names) = true.
Proof.
  intros F.
  assert (Shape : Forall (fun l => exists body,
                            l = (65%N :: body) ++ [nl] /\ ~ In nl body)
                         (configure_lines names)).
  { unfold configure_lines. apply Forall_map.
    eapply Forall_impl; [|exact F]. intros name [N _]. cbn beta zeta.
    set (runtest := join_all _ _).
    exists (lit "C_CONFIG_FILES([" ++ runtest ++ lit "], [chmod +x " ++ runtest
              ++ lit "])").
    split.
    - change (lit "AC_CONFIG_FILES([") with (65%N :: lit "C_CONFIG_FILES([").
      cbn [app]. f_equal. now rewrite <- !app_assoc.
    - intros H. apply (@configure_line_without nl name); trivial;
        [discriminate|]. fold runtest.
      change (lit "AC_CONFIG_FILES([") with (65%N :: lit "C_CONFIG_FILES([").
      cbn [app]. now right. }
  assert (Ncr : ~ In cr (concat (configure_lines names))).
  { intros H. apply in_concat in H as (l & Hl & Hc).
    unfold configure_lines in Hl. apply in_map_iff in Hl as (name & <- & Hn).
    rewrite Forall_forall in F. destruct (F name Hn) as [_ N].
    rewrite !app_assoc, in_app_iff in Hc. destruct Hc as [Hc|[Hc|[]]].
    - rewrite <- !app_assoc in Hc.
      revert Hc. apply configure_line_without; trivial; discriminate.
    - discriminate Hc. }
  destruct (letter_lines_insertable Shape) as [R I].
  assert (M : forall (marker : str),
            hd 0%N marker = 35%N ->
            Forall (fun l => str_eqb (rstrip l) marker = false)
                   (configure_lines names)).
  { intros marker Hm. eapply Forall_impl; [|exact Shape].
    intros l (body & -> & _).
    destruct (@rstrip_cons 65%N (body ++ [nl]) eq_refl) as [r E].
    change ((65%N :: body) ++ [nl]) with (65%N :: body ++ [nl]).
    match goal with
    | |- str_eqb ?x _ = false =>
        replace x with (65%N :: r) by (symmetry; exact E)
    end.
    destruct marker as [|m marker']; [reflexivity|].
    cbn [hd] in Hm. subst m. reflexivity. }
  rewrite (read_text_without_cr _ Ncr).
  split; [reflexivity|]. split; [exact R|]. split; [|split].
  - exact (M BEGIN_MAKEMODULE eq_refl).
  - exact (M END_MAKEMODULE eq_refl).
  - now apply insertable_reinsertable.
Qed.

Lemma configure_lines_are_lines_witness :
  reinsertable (configure_lines [lit "sample"; lit "clex"]) = true.
Proof.
  apply (@configure_lines_are_lines [lit "sample"; lit "clex"]).
  repeat constructor; apply existsb_eqb_In; reflexivity.
Defined.

(** ** The lines of an assignment *)

Lemma readlines_continued (vs : list str) (rest : str) :
  Forall (fun v => ~ In nl v) vs ->
  readlines (concat (List.map (fun v => lit "  " ++ v ++ [bslash; nl]) vs) ++ rest)
  = List.map (fun v => lit "  " ++ v ++ [bslash; nl]) vs ++ readlines rest.
Proof.
  induction 1 as [|v vs Hv F IH]; [reflexivity|].
  cbn [List.map concat app]. rewrite <- app_assoc.
  replace (lit "  " ++ v ++ [bslash; nl])
    with ((lit "  " ++ v ++ [bslash]) ++ [nl])
    by (now rewrite <- !app_assoc).
  rewrite readlines_line.
  - now rewrite IH.
  - rewrite !in_app_iff. intros [H|[H|[H|[]]]].
    + revert H. apply lit_no_nl. reflexivity.
    + contradiction.
    + discriminate H.
Qed.

(** X13.  When no value holds a line feed, the text of an assignment has
    one line for the header, one line for each value and an empty line at
    the end: read line by line, it is the header, the values but the last,
    each after two spaces and before a backslash, the last value without
    backslash, and the empty line. *)
Theorem write_option_lines (name option : str) (vs : list str) (v : str) :
  ~ In nl (name ++ option) ->
  Forall (fun x => ~ In nl x) (vs ++ [v]) ->
  readlines (write_option [] name option (vs ++ [v]))
  = (name ++ lit "_" ++ option ++ lit " = " ++ [bslash; nl])
      :: List.map (fun x => lit "  " ++ x ++ [bslash; nl]) vs
      ++ [lit "  " ++ v ++ [nl]; [nl]].
Proof.
  intros Nh F. apply Forall_app in F as [Fvs Fv].
  apply Forall_inv in Fv.
  rewrite write_option_assignment. cbn [app].
  assert (Ne : vs ++ [v] <> []) by (destruct vs; discriminate).
  unfold assignment. destruct (vs ++ [v]) as [|x xs] eqn:E; [congruence|].
  rewrite <- E. clear E Ne x xs.
  replace (name ++ lit "_" ++ option ++ lit " = " ++ [bslash; nl])
    with ((name ++ lit "_" ++ option ++ lit " = " ++ [bslash]) ++ [nl])
    by (now rewrite <- !app_assoc).
  rewrite readlines_line.
  - f_equal. rewrite value_lines_app by discriminate.
    rewrite (readlines_continued _ Fvs). f_equal.
    cbn [value_lines].
    replace (lit "  " ++ v ++ [nl; nl])
      with (((lit "  " ++ v) ++ [nl]) ++ [nl])
      by (now rewrite <- !app_assoc).
    rewrite readlines_line.
    + now rewrite <- app_assoc.
    + rewrite in_app_iff. intros [H|H]; [|contradiction].
      revert H. apply lit_no_nl. reflexivity.
  - rewrite in_app_iff in Nh. rewrite !in_app_iff.
    intros [H|[H|[H|[H|[H|[]]]]]]; try tauto; try discriminate H;
      revert H; apply lit_no_nl; reflexivity.
Qed.

Lemma write_option_lines_witness :
  readlines (write_option [] (lit "ccasm") (lit "SOURCES")
               [lit "a.cpp"; lit "b.cpp"])
  = [lit "ccasm_SOURCES = " ++ [bslash; nl];
     lit "  a.cpp" ++ [bslash; nl];
     lit "  b.cpp" ++ [nl];
     [nl]].
Proof.
  apply (@write_option_lines (lit "ccasm") (lit "SOURCES") [lit "a.cpp"]
           (lit "b.cpp")).
  - apply existsb_eqb_In. reflexivity.
  - repeat constructor; apply existsb_eqb_In; reflexivity.
Defined.

(** ** glob for a star and a suffix *)

Lemma translate_plain (s : str) :
  Glob.has_magic s = false -> Glob.translate_from 0 s = plain s.
Proof.
  induction s as [|c s IH]; [reflexivity|]. intros H.
  cbn [Glob.has_magic existsb] in H. apply orb_false_iff in H as [Hc Hs].
  apply orb_false_iff in Hc as [Hc H3]. apply orb_false_iff in Hc as [H1 H2].
  cbn [Glob.translate_from plain]. rewrite H1, H2, H3.
  f_equal. now apply IH.
Qed.

Lemma fnmatch_star_suffix (suffix name : str) :
  Glob.has_magic suffix = false ->
  Glob.fnmatch name (Glob.star :: suffix) = endswith suffix name.
Proof.
  intros M. unfold Glob.fnmatch, Glob.translate.
  cbn [Glob.translate_from]. rewrite N.eqb_refl, (translate_plain _ M).
  apply eq_true_iff_eq. rewrite re_fullmatch_correct, endswith_iff. split.
  - intros H. apply matches_cat_iff in H as (a & b & -> & _ & Hb).
    apply matches_plain in Hb. subst b. now exists a.
  - intros [q ->]. apply MCat; [apply matches_star_any|now apply matches_plain].
Qed.

(** In a directory whose path has no special character, [glob] for a star
    and a suffix reports the visible entries that end in the suffix, in the
    order of the listing, and nothing when the directory cannot be listed. *)
Lemma glob_star_suffix (fs : node) (dir suffix : str) :
  dir <> [] -> endswith [sep] dir = false -> Glob.has_magic dir = false ->
  ~ In sep suffix -> Glob.has_magic suffix = false ->
  Glob.glob fs (join dir (Glob.star :: suffix))
  = List.map (join dir) (filter (visible_with_suffix suffix) (listed fs dir)).
Proof.
  intros N E M Ns Ms.
  rewrite (join_plain _ N E) by reflexivity.
  assert (Mp : Glob.has_magic (dir ++ sep :: Glob.star :: suffix) = true).
  { rewrite has_magic_app, M. reflexivity. }
  assert (G1 : Glob.glob1 fs dir (Glob.star :: suffix)
               = filter (visible_with_suffix suffix) (listed fs dir)).
  { unfold Glob.glob1. fold (listed fs dir).
    change (Glob.is_hidden (Glob.star :: suffix)) with false. cbn iota.
    rewrite filter_filter. apply filter_ext. intros name.
    unfold visible_with_suffix. now rewrite fnmatch_star_suffix. }
  unfold Glob.glob. cbn [Glob.iglob].
  rewrite os_path_split_join; try assumption.
  - rewrite Mp, M, andb_false_r. cbn [negb].
    change (Glob.has_magic (Glob.star :: suffix)) with true. cbn iota.
    destruct dir as [|c dir0] eqn:Ed; [congruence|]. rewrite <- Ed in *.
    cbn [flat_map]. rewrite app_nil_r. now rewrite G1.
  - intros [H|H]; [discriminate H|contradiction].
Qed.

(** X14.  For a group whose name has no special character, the
    EXTRA_DIST files of [testdir] are the visible entries of the group
    directory that end in [.hh], then those that end in [.cc], then
    [.json], then [.txt], each kind in the order of the listing, and of no
    entry further down. *)
Theorem testdir_extradist_closed (fs : node) (group : str) :
  entry_name group = true -> Glob.has_magic group = false ->
  let test_dir := join unittest_dir group in
  testdir_extradist fs group
  = flat_map
      (fun suffix =>
         List.map (join test_dir)
                  (filter (visible_with_suffix suffix) (listed fs test_dir)))
      [lit ".hh"; lit ".cc"; lit ".json"; lit ".txt"].
Proof.
  intros V M test_dir.
  destruct (@test_dir_plain group V M) as (D1 & D2 & D3).
  unfold testdir_extradist, extradist_ext. fold test_dir.
  cbn [flat_map].
  change (lit "*.hh") with (Glob.star :: lit ".hh").
  change (lit "*.cc") with (Glob.star :: lit ".cc").
  change (lit "*.json") with (Glob.star :: lit ".json").
  change (lit "*.txt") with (Glob.star :: lit ".txt").
  rewrite !glob_star_suffix; try assumption; try reflexivity;
    apply existsb_eqb_In; reflexivity.
Qed.

Lemma testdir_extradist_closed_witness :
  testdir_extradist
    (Dir [(lit "tests",
           Dir [(lit "unit",
                 Dir [(lit "sample",
                       Dir [(lit "d.json", File); (lit "a_test.cpp", File);
                            (lit ".x.hh", File); (lit "h.hh", File);
                            (lit "sub", Dir [(lit "deep.txt", File)])])])])])
    (lit "sample")
  = [lit "tests/unit/sample/h.hh"; lit "tests/unit/sample/d.json"].
Proof.
  rewrite testdir_extradist_closed; vm_compute; reflexivity.
Defined.

(** X15.  [has_tests] and [testdir] raise nothing for a group directory
    that does not exist, is a regular file or is empty: [has_tests] is
    false, and [testdir] writes the whole stanza all the same, with the
    harness file as the only source and without EXTRA_DIST. *)
Theorem testdir_nothing_listed (fs : node) (f group : str) :
  entry_name group = true -> Glob.has_magic group = false ->
  listed fs (join unittest_dir group) = [] ->
  has_tests fs (join unittest_dir group) = false
  /\ testdir_sources fs group = [lit "tests/unit/unit_test.cpp"]
  /\ testdir fs f group
     = f
       ++ (lit "check_PROGRAMS += " ++ [bslash; nl]
             ++ lit "  casm_unit_" ++ group ++ [nl; nl])
       ++ (lit "casm_unit_" ++ group ++ lit "_CXXFLAGS = " ++ [bslash; nl]
             ++ lit "  $(AM_CXXFLAGS)" ++ [bslash; nl]
             ++ lit "  -I$(top_srcdir)/tests/unit/" ++ [nl; nl])
       ++ (lit "casm_unit_" ++ group ++ lit "_SOURCES = " ++ [bslash; nl]
             ++ lit "  tests/unit/unit_test.cpp" ++ [nl; nl])
       ++ (lit "casm_unit_" ++ group ++ lit "_LDADD = " ++ [bslash; nl]
             ++ value_lines
                  (lib_casm ++ boost_libs ++ boost_test_libs ++ lib_casm_testing))
       ++ (lit "TESTS += " ++ [bslash; nl]
             ++ lit "  "
             ++ join_all (lit "tests") [lit "unit"; group; lit "run_test_" ++ group]
             ++ [nl; nl]).
Proof.
  intros V M L.
  destruct (@test_dir_plain group V M) as (D1 & D2 & D3).
  assert (G : forall suffix,
            ~ In sep suffix -> Glob.has_magic suffix = false ->
            Glob.glob fs (join (join unittest_dir group) (Glob.star :: suffix))
            = []).
  { intros suffix Ns Ms. rewrite glob_star_suffix; try assumption.
    now rewrite L. }
  assert (Gt : Glob.glob fs (join (join unittest_dir group) (lit "*_test.cpp"))
               = []).
  { apply (G (lit "_test.cpp")); [apply existsb_eqb_In|]; reflexivity. }
  assert (Ge : flat_map
                 (fun ext => Glob.glob fs (join (join unittest_dir group) ext))
                 extradist_ext = []).
  { unfold extradist_ext. cbn [flat_map].
    change (lit "*.hh") with (Glob.star :: lit ".hh").
    change (lit "*.cc") with (Glob.star :: lit ".cc").
    change (lit "*.json") with (Glob.star :: lit ".json").
    change (lit "*.txt") with (Glob.star :: lit ".txt").
    rewrite !G; try reflexivity; apply existsb_eqb_In; reflexivity. }
  assert (S : testdir_sources fs group = [lit "tests/unit/unit_test.cpp"]).
  { unfold testdir_sources. now rewrite Gt. }
  split; [|split].
  - unfold has_tests. now rewrite Gt.
  - exact S.
  - rewrite testdir_text, S, Ge.
    change (lib_casm ++ boost_libs ++ boost_test_libs ++ lib_casm_testing)
      with (lit "libcasm.la" :: (boost_libs ++ boost_test_libs ++ lib_casm_testing)).
    unfold assignment. cbn [value_lines].
    rewrite app_nil_l, <- !app_assoc. reflexivity.
Qed.

Lemma testdir_nothing_listed_witness :
  has_tests (Dir [(lit "tests", Dir [(lit "unit", Dir [])])])
            (join unittest_dir (lit "gone"))
  = false.
Proof.
  apply (@testdir_nothing_listed
           (Dir [(lit "tests", Dir [(lit "unit", Dir [])])]) [] (lit "gone"));
    vm_compute; reflexivity.
Defined.
